(** * Geometric mapping inversion and matrix-free cell batching

    A shallow embedding of the parts of
    [source/fe/mapping_q_generic.cc] and
    [include/deal.II/matrix_free/matrix_free.templates.h] that decide the
    inversion of the reference-to-real cell map, the reuse of cached
    Jacobian data in [fill_fe_values], the construction of SIMD cell
    batches, and the layout of the constraint pool.

    Conventions.
    - [double] is IEEE binary64, the kernel's primitive [float]; a literal
      such as [1e-10] denotes the nearest binary64 value, as in C++.
    - [long double] has a platform-dependent format; code written in it is
      embedded over an arbitrary arithmetic [LongDouble], of which binary64
      is one instance.
    - [Point<dim>] and [Tensor<1,dim>] are lists of coordinates,
      [Tensor<2,dim>] a list of rows.
    - A function that can leave through [AssertThrow] returns an [outcome].
    - [Assert] is the debug-mode check of the library: it is compiled out
      of optimised builds (the sources rely on this, see the
      [#ifdef DEBUG] blocks and the [(void)n_shapes;] idiom), so functions
      that contain one take the build mode as an argument. *)

From Stdlib Require Import ZArith List Bool Lia Floats Btauto.
From stdpp Require Import base tactics option list sorting gmap.

Set Warnings "-inexact-float".
Set Default Proof Using "Type".

(** ** Exceptions and outcomes *)

Inductive exception : Type :=
| ExcTransformationFailed
| ExcInternalError
| ExcNotImplemented
| ExcMessage
| ExcDimensionMismatch
| ExcDistortedMappedCell
| ExcIndexRange.

(** How a call ends: it returns, it throws ([AssertThrow], which the
    callers may catch), a failed [Assert] stops the program (debug builds
    only), or it reads or writes a vector outside its bounds, which C++
    leaves undefined. *)
Inductive outcome (A : Type) : Type :=
| Returned (a : A)
| Thrown (e : exception)
| Aborted (e : exception)
| Undefined.

Arguments Returned {A} a.
Arguments Thrown {A} e.
Arguments Aborted {A} e.
Arguments Undefined {A}.

Definition is_returned {A : Type} (o : outcome A) : bool :=
  match o with Returned _ => true | _ => false end.

Definition bind {A B : Type} (o : outcome A) (k : A -> outcome B) : outcome B :=
  match o with
  | Returned a => k a
  | Thrown e => Thrown e
  | Aborted e => Aborted e
  | Undefined => Undefined
  end.

(** [v[i]] on a [std::vector]. *)
Definition at_index {A : Type} (v : list A) (i : nat) : outcome A :=
  match v !! i with
  | Some a => Returned a
  | None => Undefined
  end.

(** [Assert(cond, exc)]: checked when [debug] is set, skipped otherwise. *)
Definition Assert (debug : bool) (cond : bool) (exc : exception)
  : outcome unit :=
  if debug && negb cond then Aborted exc else Returned tt.

(** [AssertThrow(cond, exc)]: checked in every build. *)
Definition AssertThrow (cond : bool) (exc : exception) : outcome unit :=
  if cond then Returned tt else Thrown exc.

#[export] Instance outcome_ret : MRet outcome := fun A a => Returned a.
#[export] Instance outcome_bind : MBind outcome := fun A B k o => bind o k.

(** ** Points and tensors over binary64 *)

Definition Point : Type := list float.
Definition Tensor2 : Type := list (list float).

(** [p(i)], or [p[i]]: coordinate [i] of a point.  The C++ types fix the
    number of coordinates; an index outside the list reads as zero. *)
Definition coord (p : Point) (i : nat) : float := nth i p 0%float.

(** [vertices[i]]: entry [i] of an array of points. *)
Definition vertex (vs : list Point) (i : nat) : Point := nth i vs [].


(** ** Extended-precision arithmetic ([long double]) *)

Class LongDouble (L : Type) : Type := {
  ld_of_double : float -> L;
  ld_to_double : L -> float;
  ld_add : L -> L -> L;
  ld_sub : L -> L -> L;
  ld_mul : L -> L -> L;
  ld_div : L -> L -> L;
  ld_opp : L -> L;
  ld_abs : L -> L;
  ld_sqrt : L -> L;
  ld_max : L -> L -> L;
  ld_ltb : L -> L -> bool;
  ld_eqb : L -> L -> bool
}.

Declare Scope ld_scope.
Delimit Scope ld_scope with ld.
Notation "a + b" := (ld_add a b) : ld_scope.
Notation "a - b" := (ld_sub a b) : ld_scope.
Notation "a * b" := (ld_mul a b) : ld_scope.
Notation "a / b" := (ld_div a b) : ld_scope.
Notation "a <? b" := (ld_ltb a b) : ld_scope.
Notation "a >? b" := (ld_ltb b a) : ld_scope.
Notation "a =? b" := (ld_eqb a b) : ld_scope.

(** [std::max] on binary64: [(a < b) ? b : a]. *)
Definition float_max (a b : float) : float :=
  if PrimFloat.ltb a b then b else a.

(** The platforms on which [long double] is binary64. *)
#[export] Instance LongDouble_binary64 : LongDouble float := {|
  ld_of_double := fun x => x;
  ld_to_double := fun x => x;
  ld_add := PrimFloat.add;
  ld_sub := PrimFloat.sub;
  ld_mul := PrimFloat.mul;
  ld_div := PrimFloat.div;
  ld_opp := PrimFloat.opp;
  ld_abs := PrimFloat.abs;
  ld_sqrt := PrimFloat.sqrt;
  ld_max := float_max;
  ld_ltb := PrimFloat.ltb;
  ld_eqb := PrimFloat.eqb
|}.

(** ** [internal::MappingQ1]: closed-form inversion of the degree-1 map *)

Module MappingQ1.

(** [transform_real_to_unit_cell] for [dim = 1]
    (mapping_q_generic.cc, lines 67-77). *)
Definition transform_real_to_unit_cell_1d
  (vertices : list Point) (p : Point) : Point :=
  [ ((coord p 0 - coord (vertex vertices 0) 0) /
     (coord (vertex vertices 1) 0 - coord (vertex vertices 0) 0))%float ].

Section Quadratic.
Context {L : Type} `{LongDouble L}.
Local Open Scope ld_scope.

(** A literal of the source, converted to [long double]. *)
Definition lit (x : float) : L := ld_of_double x.

(** The coefficients of the quadratic in [eta] (lines 93-112). *)
Record quadratic : Type := {
  q_x : L; q_y : L;
  q_x0 : L; q_x1 : L; q_x2 : L; q_x3 : L;
  q_y0 : L; q_y1 : L; q_y2 : L; q_y3 : L;
  q_a : L; q_b : L; q_c : L;
  q_discriminant : L
}.

Definition quadratic_of (vertices : list Point) (p : Point) : quadratic :=
  let x := ld_of_double (coord p 0) in
  let y := ld_of_double (coord p 1) in
  let x0 := ld_of_double (coord (vertex vertices 0) 0) in
  let x1 := ld_of_double (coord (vertex vertices 1) 0) in
  let x2 := ld_of_double (coord (vertex vertices 2) 0) in
  let x3 := ld_of_double (coord (vertex vertices 3) 0) in
  let y0 := ld_of_double (coord (vertex vertices 0) 1) in
  let y1 := ld_of_double (coord (vertex vertices 1) 1) in
  let y2 := ld_of_double (coord (vertex vertices 2) 1) in
  let y3 := ld_of_double (coord (vertex vertices 3) 1) in
  let a := (x1 - x3) * (y0 - y2) - (x0 - x2) * (y1 - y3) in
  let b := (ld_opp (x0 - x1 - x2 + x3)) * y +
           (x - lit 2 * x1 + x3) * y0 - (x - lit 2 * x0 + x2) * y1 -
           (x - x1) * y2 + (x - x0) * y3 in
  let c := (x0 - x1) * y - (x - x1) * y0 + (x - x0) * y1 in
  {| q_x := x; q_y := y;
     q_x0 := x0; q_x1 := x1; q_x2 := x2; q_x3 := x3;
     q_y0 := y0; q_y1 := y1; q_y2 := y2; q_y3 := y3;
     q_a := a; q_b := b; q_c := c;
     q_discriminant := b * b - lit 4 * a * c |}.

(** The two roots [eta1], [eta2] (lines 119-143). *)
Definition roots (q : quadratic) : L * L :=
  let a := q_a q in
  let b := q_b q in
  let c := q_c q in
  let sqrt_discriminant := ld_sqrt (q_discriminant q) in
  if negb (b =? lit 0) && (ld_abs b =? sqrt_discriminant) then
    (ld_opp c / b, ld_opp c / b)
  else if ld_abs a <? lit 1e-8 * ld_abs b then
    (lit 2 * c / (ld_opp b - sqrt_discriminant),
     lit 2 * c / (ld_opp b + sqrt_discriminant))
  else
    ((ld_opp b - sqrt_discriminant) / (lit 2 * a),
     (ld_opp b + sqrt_discriminant) / (lit 2 * a)).

(** "pick the one closer to the center of the cell" (lines 145-146). *)
Definition pick_eta (eta1 eta2 : L) : L :=
  if ld_abs (eta1 - lit 0.5) <? ld_abs (eta2 - lit 0.5)
  then eta1 else eta2.

Definition eta_of (q : quadratic) : L :=
  pick_eta (fst (roots q)) (snd (roots q)).

(** The two ways to compute [xi] from [eta] (lines 152-171). *)
Definition subexpr0 (q : quadratic) (eta : L) : L :=
  ld_opp eta * q_x2 q + q_x0 q * (eta - lit 1).

Definition xi_denominator0 (q : quadratic) (eta : L) : L :=
  eta * q_x3 q - q_x1 q * (eta - lit 1) + subexpr0 q eta.

Definition max_x (q : quadratic) : L :=
  ld_max (ld_max (ld_abs (q_x0 q)) (ld_abs (q_x1 q)))
         (ld_max (ld_abs (q_x2 q)) (ld_abs (q_x3 q))).

Definition subexpr1 (q : quadratic) (eta : L) : L :=
  ld_opp eta * q_y2 q + q_y0 q * (eta - lit 1).

Definition xi_denominator1 (q : quadratic) (eta : L) : L :=
  eta * q_y3 q - q_y1 q * (eta - lit 1) + subexpr1 q eta.

Definition max_y (q : quadratic) : L :=
  ld_max (ld_max (ld_abs (q_y0 q)) (ld_abs (q_y1 q)))
         (ld_max (ld_abs (q_y2 q)) (ld_abs (q_y3 q))).

(** [transform_real_to_unit_cell] for [dim = 2] (lines 81-190).  The two
    [AssertThrow]s are the [Thrown] results; the "bogus return" of a NaN
    point after the [if] is not reachable, both branches leave before. *)
Definition transform_real_to_unit_cell_2d
  (vertices : list Point) (p : Point) : outcome Point :=
  let q := quadratic_of vertices p in
  if negb (q_discriminant q >? lit 0) then Thrown ExcTransformationFailed
  else
    let eta := eta_of q in
    if ld_abs (xi_denominator0 q eta) >? lit 1e-10 * max_x q then
      let xi := ld_to_double ((q_x q + subexpr0 q eta) / xi_denominator0 q eta) in
      Returned [xi; ld_to_double eta]
    else if ld_abs (xi_denominator1 q eta) >? lit 1e-10 * max_y q then
      let xi := ld_to_double ((subexpr1 q eta + q_y q) / xi_denominator1 q eta) in
      Returned [xi; ld_to_double eta]
    else Thrown ExcTransformationFailed.

(** The threshold as the specification words it, "the maximum vertex
    x-coordinate": the largest of the four coordinates themselves, where
    the code takes the largest of their absolute values ([max_x]). *)
Definition max_vertex_x (q : quadratic) : L :=
  ld_max (ld_max (q_x0 q) (q_x1 q)) (ld_max (q_x2 q) (q_x3 q)).

(** The two tests of the code, and the two quotients. *)
Definition x_test (q : quadratic) : bool :=
  ld_abs (xi_denominator0 q (eta_of q)) >? lit 1e-10 * max_x q.

Definition y_test (q : quadratic) : bool :=
  ld_abs (xi_denominator1 q (eta_of q)) >? lit 1e-10 * max_y q.

Definition x_quotient (q : quadratic) : L :=
  (q_x q + subexpr0 q (eta_of q)) / xi_denominator0 q (eta_of q).

Definition y_quotient (q : quadratic) : L :=
  (subexpr1 q (eta_of q) + q_y q) / xi_denominator1 q (eta_of q).

(** C3 (amended).  In whatever arithmetic [long double] is: [eta] is the
    first root when it is strictly closer to 0.5 than the second, else the
    second; the call throws [ExcTransformationFailed] when the
    discriminant is not strictly positive; otherwise [xi] is the quotient
    by the x-based denominator when the magnitude of that denominator
    exceeds 1e-10 times the largest absolute value of the vertex
    x-coordinates, else the quotient by the y-based denominator under the
    same test on the y-coordinates, and when both tests fail the call
    throws [ExcTransformationFailed].  A point is returned in no other
    case, and the call ends in no other way. *)
Theorem closed_form_2d_branches (vertices : list Point) (p : Point) :
  let q := quadratic_of vertices p in
  let result := transform_real_to_unit_cell_2d vertices p in
  eta_of q =
    (if ld_abs (fst (roots q) - lit 0.5) <? ld_abs (snd (roots q) - lit 0.5)
     then fst (roots q) else snd (roots q)) /\
  max_x q =
    ld_max (ld_max (ld_abs (ld_of_double (coord (vertex vertices 0) 0)))
                   (ld_abs (ld_of_double (coord (vertex vertices 1) 0))))
           (ld_max (ld_abs (ld_of_double (coord (vertex vertices 2) 0)))
                   (ld_abs (ld_of_double (coord (vertex vertices 3) 0)))) /\
  ((q_discriminant q >? lit 0) = false ->
   result = Thrown ExcTransformationFailed) /\
  ((q_discriminant q >? lit 0) = true -> x_test q = true ->
   result = Returned [ld_to_double (x_quotient q); ld_to_double (eta_of q)]) /\
  ((q_discriminant q >? lit 0) = true -> x_test q = false -> y_test q = true ->
   result = Returned [ld_to_double (y_quotient q); ld_to_double (eta_of q)]) /\
  ((q_discriminant q >? lit 0) = true -> x_test q = false -> y_test q = false ->
   result = Thrown ExcTransformationFailed) /\
  (forall unit_point, result = Returned unit_point ->
     (q_discriminant q >? lit 0) = true /\ (x_test q = true \/ y_test q = true)) /\
  (result = Thrown ExcTransformationFailed \/ is_returned result = true).
Proof.
  intros q result. subst result.
  unfold transform_real_to_unit_cell_2d, x_test, y_test, x_quotient,
    y_quotient.
  fold q.
  split; [reflexivity|]. split; [reflexivity|].
  destruct (q_discriminant q >? lit 0) eqn:Hd; cbn [negb];
    destruct (ld_abs (xi_denominator0 q (eta_of q)) >? lit 1e-10 * max_x q)
      eqn:Hx;
    destruct (ld_abs (xi_denominator1 q (eta_of q)) >? lit 1e-10 * max_y q)
      eqn:Hy;
    repeat split; intros; try discriminate; try reflexivity; auto.
Qed.

End Quadratic.

(** *** The closed form on a cell left of the origin *)

(** The unit square turned by a quarter and moved to [-2,-1] x [0,1]: its
    Jacobian is the rotation, of determinant 1. *)
Definition rotated_cell : list Point :=
  [[-1; 0]; [-1; 1]; [-2; 0]; [-2; 1]]%float.

(** The image of the reference point (0.25, 0.5). *)
Definition rotated_cell_point : Point := [-1.5; 0.25]%float.

(** With "the maximum vertex x-coordinate" for threshold, which is -1
    here, the x-based denominator, 0, passes the test, and [xi] would be
    the quotient 0/0.  The code compares with the largest absolute value,
    2, and divides by the y-based denominator: it returns (0.25, 0.5). *)
Lemma closed_form_2d_threshold_counterexample :
  let q := quadratic_of (L := float) rotated_cell rotated_cell_point in
  (q_discriminant q >? lit 0)%ld = true /\
  xi_denominator0 q (eta_of q) = 0%float /\
  max_vertex_x q = (-1)%float /\
  (ld_abs (xi_denominator0 q (eta_of q)) >? lit 1e-10 * max_vertex_x q)%ld
    = true /\
  PrimFloat.is_nan (ld_to_double (x_quotient q)) = true /\
  max_x q = 2%float /\
  x_test q = false /\
  transform_real_to_unit_cell_2d (L := float) rotated_cell rotated_cell_point
    = Returned [0.25; 0.5]%float.
Proof. vm_compute. repeat split; reflexivity. Qed.

End MappingQ1.

(** ** Tensor algebra used by the Newton iterations *)

(** Component-wise arithmetic of [Point] and [Tensor<1,dim>]. *)
Definition point_add (a b : Point) : Point := zip_with PrimFloat.add a b.
Definition point_sub (a b : Point) : Point := zip_with PrimFloat.sub a b.
Definition point_scale (s : float) (a : Point) : Point :=
  map (PrimFloat.mul s) a.
Definition point_opp (a : Point) : Point := map PrimFloat.opp a.
Definition zero_point (n : nat) : Point := replicate n 0%float.

(** [a * b] on two rank-1 tensors: the scalar product. *)
Definition scalar_product (a b : Point) : float :=
  foldl PrimFloat.add 0%float (zip_with PrimFloat.mul a b).

(** [norm_square()] of a rank-1 and of a rank-2 tensor; [norm()]. *)
Definition norm_square (a : Point) : float :=
  foldl (fun s x => (s + x * x)%float) 0%float a.
Definition tensor_norm_square (t : Tensor2) : float :=
  foldl (fun s row => (s + norm_square row)%float) 0%float t.
Definition norm (a : Point) : float := PrimFloat.sqrt (norm_square a).

(** [t * v]: a rank-2 tensor applied to a rank-1 tensor. *)
Definition apply_tensor (t : Tensor2) (v : Point) : Point :=
  map (fun row => scalar_product row v) t.

(** [transpose(t)] for a square tensor of [n] rows. *)
Definition transpose (n : nat) (t : Tensor2) : Tensor2 :=
  map (fun j => map (fun row => coord row j) t) (seq 0 n).

(** [determinant] and [invert] of rank-2 tensors live in the tensor header
    of the library, which these sources only call; the iterations below are
    embedded over any pair of such functions. *)
Class TensorAlgebra : Type := {
  determinant : Tensor2 -> float;
  invert : Tensor2 -> Tensor2
}.

(** The usual cofactor formulas for one and two dimensions; used to run
    the iterations on concrete cells. *)
Definition determinant_small (t : Tensor2) : float :=
  match t with
  | [[a]] => a
  | [[a; b]; [c; d]] => (a * d - c * b)%float
  | _ => 0%float
  end.

Definition invert_small (t : Tensor2) : Tensor2 :=
  match t with
  | [[a]] => [[ (1 / a)%float ]]
  | [[a; b]; [c; d]] =>
      let inv_det_t := (1 / (a * d - c * b))%float in
      [[ (d * inv_det_t)%float; (- b * inv_det_t)%float ];
       [ (- c * inv_det_t)%float; (a * inv_det_t)%float ]]
  | _ => t
  end.

Definition small_tensors : TensorAlgebra :=
  {| determinant := determinant_small; invert := invert_small |}.

(** ** Order of binary64 *)

Lemma SFcompare_swap (f1 f2 : spec_float) :
  SFcompare f2 f1 = option_map CompOpp (SFcompare f1 f2).
Proof.
  destruct f1 as [s1|s1| |s1 m1 e1], f2 as [s2|s2| |s2 m2 e2]; cbn;
    try reflexivity;
    try (destruct s1; reflexivity); try (destruct s2; reflexivity);
    try (destruct s1, s2; reflexivity).
  rewrite (Z.compare_antisym e1 e2).
  destruct s1, s2; try reflexivity;
    destruct (e1 ?= e2)%Z; cbn; try reflexivity.
  - pose proof (Pos.compare_cont_antisym m1 m2 Eq) as H. cbn in H.
    rewrite <- H, CompOpp_involutive. reflexivity.
  - pose proof (Pos.compare_cont_antisym m1 m2 Eq) as H. cbn in H.
    rewrite <- H. reflexivity.
Qed.

Lemma SFcompare_None (f1 f2 : spec_float) :
  SFcompare f1 f2 = None -> f1 = S754_nan \/ f2 = S754_nan.
Proof.
  destruct f1 as [s1|s1| |s1 m1 e1], f2 as [s2|s2| |s2 m2 e2]; cbn;
    try discriminate; auto.
Qed.

(** Of two numbers, when the first is not below the second, the second
    is at most the first; [a <? b] is also false when one of them is
    NaN. *)
Lemma not_below_at_most (a b : float) :
  PrimFloat.is_nan a = false ->
  PrimFloat.is_nan b = false ->
  (a <? b)%float = false ->
  (b <=? a)%float = true.
Proof.
  unfold PrimFloat.is_nan.
  rewrite !FloatAxioms.eqb_spec, FloatAxioms.ltb_spec, FloatAxioms.leb_spec.
  unfold SFeqb, SFltb, SFleb.
  rewrite (SFcompare_swap (Prim2SF a) (Prim2SF b)).
  intros Ha Hb Hlt.
  destruct (SFcompare (Prim2SF a) (Prim2SF b)) as [[]|] eqn:E;
    try reflexivity; try discriminate.
  apply SFcompare_None in E. destruct E as [E|E]; rewrite E in *;
    discriminate.
Qed.

(** ** [internal::MappingQGenericImplementation] *)

Module MappingQGenericImplementation.

Local Open Scope float_scope.

(** The value and first derivative of a one-dimensional polynomial at a
    point, [poly[i].value(x, 1, out)]; the polynomial class itself is
    outside these sources, a polynomial is used through this evaluation. *)
Definition Polynomial : Type := float -> float * float.

(** A [Tensor<2,spacedim>] whose first rows are [rows]; the remaining rows
    keep their zero initialisation. *)
Definition pad_rows (spacedim : nat) (rows : Tensor2) : Tensor2 :=
  rows ++ replicate (spacedim - length rows) (zero_point spacedim).

(** [compute_mapped_location_of_point(points, poly, renumber, p)]
    (lines 769-890): the mapped point and the Jacobian.  With two shape
    functions per direction the closed linear, bilinear and trilinear
    formulas are used (lines 782-824). *)
Definition linear_shortcut (dim : nat) (points : list Point) (p : Point)
  : Point * Tensor2 :=
  let P := vertex points in
  let spacedim := length (P 0%nat) in
  match dim with
  | 1%nat =>
      let derivative := pad_rows spacedim [point_sub (P 1%nat) (P 0%nat)] in
      (point_add (point_scale (1 - coord p 0) (P 0%nat))
                 (point_scale (coord p 0) (P 1%nat)),
       derivative)
  | 2%nat =>
      let x0 := 1 - coord p 0 in
      let x1 := coord p 0 in
      let tmp0 := point_add (point_scale x0 (P 0%nat)) (point_scale x1 (P 1%nat)) in
      let tmp1 := point_add (point_scale x0 (P 2%nat)) (point_scale x1 (P 3%nat)) in
      let mapped := point_add (point_scale (1 - coord p 1) tmp0)
                              (point_scale (coord p 1) tmp1) in
      let derivative := pad_rows spacedim
        [ point_add (point_scale (1 - coord p 1) (point_sub (P 1%nat) (P 0%nat)))
                    (point_scale (coord p 1) (point_sub (P 3%nat) (P 2%nat)));
          point_sub tmp1 tmp0 ] in
      (mapped, transpose spacedim derivative)
  | _ =>
      let x0 := 1 - coord p 0 in
      let x1 := coord p 0 in
      let y0 := 1 - coord p 1 in
      let y1 := coord p 1 in
      let z0 := 1 - coord p 2 in
      let z1 := coord p 2 in
      let tmp0 := point_add (point_scale x0 (P 0%nat)) (point_scale x1 (P 1%nat)) in
      let tmp1 := point_add (point_scale x0 (P 2%nat)) (point_scale x1 (P 3%nat)) in
      let tmpy0 := point_add (point_scale y0 tmp0) (point_scale y1 tmp1) in
      let tmp2 := point_add (point_scale x0 (P 4%nat)) (point_scale x1 (P 5%nat)) in
      let tmp3 := point_add (point_scale x0 (P 6%nat)) (point_scale x1 (P 7%nat)) in
      let tmpy1 := point_add (point_scale y0 tmp2) (point_scale y1 tmp3) in
      let mapped := point_add (point_scale z0 tmpy0) (point_scale z1 tmpy1) in
      let derivative := pad_rows spacedim
        [ point_add
            (point_scale z0
               (point_add (point_scale y0 (point_sub (P 1%nat) (P 0%nat)))
                          (point_scale y1 (point_sub (P 3%nat) (P 2%nat)))))
            (point_scale z1
               (point_add (point_scale y0 (point_sub (P 5%nat) (P 4%nat)))
                          (point_scale y1 (point_sub (P 7%nat) (P 6%nat)))));
          point_add (point_scale z0 (point_sub tmp1 tmp0))
                    (point_scale z1 (point_sub tmp3 tmp2));
          point_sub tmpy1 tmpy0 ] in
      (mapped, transpose spacedim derivative)
  end.

(** The general tensor-product path (lines 826-889).  [shapes d] holds
    the value and derivative of every polynomial at [p[d]]; [i] runs
    through the tensor-product index in step with [i0], [i1], [i2]. *)
Definition shapes (poly : list Polynomial) (p : Point) (d : nat)
  : list (float * float) :=
  map (fun pl => pl (coord p d)) poly.

Definition x_sweep (spacedim : nat) (points : list Point) (renumber : list nat)
  (sh0 : list (float * float)) (i : nat) : Point * Point :=
  foldl (fun acc e =>
           let Pk := vertex points (nth (i + fst e) renumber 0%nat) in
           (point_add (fst acc) (point_scale (fst (snd e)) Pk),
            point_add (snd acc) (point_scale (snd (snd e)) Pk)))
        (zero_point spacedim, zero_point spacedim)
        (imap pair sh0).

Definition y_sweep (spacedim : nat) (points : list Point) (renumber : list nat)
  (sh0 sh1 : list (float * float)) (i : nat) : Point * Point * Point :=
  let n_shapes := length sh0 in
  foldl (fun acc e =>
           let '(value_y, deriv_x, deriv_y) := acc in
           let vd := x_sweep spacedim points renumber sh0
                       (i + fst e * n_shapes) in
           (point_add value_y (point_scale (fst (snd e)) (fst vd)),
            point_add deriv_x (point_scale (fst (snd e)) (snd vd)),
            point_add deriv_y (point_scale (snd (snd e)) (fst vd))))
        (zero_point spacedim, zero_point spacedim, zero_point spacedim)
        (imap pair sh1).

Definition tensor_product_path (dim : nat) (points : list Point)
  (poly : list Polynomial) (renumber : list nat) (p : Point)
  : Point * Tensor2 :=
  let spacedim := length (vertex points 0) in
  let n_shapes := length poly in
  match dim with
  | 1%nat =>
      let vd := x_sweep spacedim points renumber (shapes poly p 0) 0 in
      (fst vd, pad_rows spacedim [snd vd])
  | 2%nat =>
      let '(value_y, deriv_x, deriv_y) :=
        y_sweep spacedim points renumber (shapes poly p 0) (shapes poly p 1) 0 in
      (value_y, transpose spacedim (pad_rows spacedim [deriv_x; deriv_y]))
  | _ =>
      let '(first, c0, c1, c2) :=
        foldl (fun acc e =>
                 let '(first, c0, c1, c2) := acc in
                 let '(value_y, deriv_x, deriv_y) :=
                   y_sweep spacedim points renumber
                     (shapes poly p 0) (shapes poly p 1)
                     (fst e * n_shapes * n_shapes) in
                 (point_add first (point_scale (fst (snd e)) value_y),
                  point_add c0 (point_scale (fst (snd e)) deriv_x),
                  point_add c1 (point_scale (fst (snd e)) deriv_y),
                  point_add c2 (point_scale (snd (snd e)) value_y)))
              (zero_point spacedim, zero_point spacedim,
               zero_point spacedim, zero_point spacedim)
              (imap pair (shapes poly p 2)) in
      (first, transpose spacedim (pad_rows spacedim [c0; c1; c2]))
  end.

Definition compute_mapped_location_of_point (dim : nat) (points : list Point)
  (poly : list Polynomial) (renumber : list nat) (p : Point)
  : Point * Tensor2 :=
  if (length poly =? 2)%nat then linear_shortcut dim points p
  else tensor_product_path dim points poly renumber p.

(** *** Newton iteration for [dim == spacedim] (lines 897-1052) *)

(** Where [do_transform_real_to_unit_cell_internal] leaves: the early
    return of line 930, the three returns of [invalid_point] (lines 985,
    1040 and 1046), and the final return of line 1051. *)
Inductive newton_exit : Type :=
| ExitEarly (p_unit : Point)
| ExitDeterminant
| ExitLineSearch
| ExitIterationLimit
| ExitConverged (p_unit : Point).

Definition exit_is_failure (e : newton_exit) : bool :=
  match e with
  | ExitDeterminant | ExitLineSearch | ExitIterationLimit => true
  | ExitEarly _ | ExitConverged _ => false
  end.

(** The local variables the loops update. *)
Record newton_state : Type := {
  p_unit : Point;
  p_real : Point * Tensor2;
  f : Point
}.

Inductive line_search_result : Type :=
| LsAccepted (st : newton_state)
| LsFailed.

Definition eps : float := 1e-11.
Definition newton_iteration_limit : nat := 20.

(** [Point<dim> invalid_point; invalid_point[0] = infinity;] *)
Definition invalid_point (dim : nat) : Point :=
  <[0%nat := infinity]> (zero_point dim).

Section Newton.
Context {TA : TensorAlgebra}.
Variable dim : nat.
(** [compute_mapped_location_of_point(points, polynomials_1d, renumber, .)]
    for the cell at hand. *)
Variable forward : Point -> Point * Tensor2.
(** The real point to invert. *)
Variable p : Point.

(** [p_unit_trial[i] -= step_length * delta[i]] for [i < dim]. *)
Definition trial_point (p_unit : Point) (step_length : float) (delta : Point)
  : Point :=
  imap (fun i x => if (i <? dim)%nat then x - step_length * coord delta i else x)
       p_unit.

(** One trial of the line search: the point, its image and the residual
    (lines 1002-1013). *)
Definition trial_state (st : newton_state) (delta : Point)
  (step_length : float) : newton_state :=
  let p_unit_trial := trial_point (p_unit st) step_length delta in
  let p_real_trial := forward p_unit_trial in
  {| p_unit := p_unit_trial;
     p_real := p_real_trial;
     f := point_sub (fst p_real_trial) p |}.

(** "see if we are making progress with the current step length"
    (line 1030). *)
Definition improves (st : newton_state) (delta : Point) (step_length : float)
  : bool :=
  norm_square (f (trial_state st delta step_length)) <? norm_square (f st).

(** The line search, the inner [do ... while (true)] (lines 995-1042).
    [fuel] bounds the number of trial steps. *)
Fixpoint line_search (fuel : nat) (st : newton_state) (delta : Point)
  (step_length : float) : option line_search_result :=
  match fuel with
  | O => None
  | S fuel' =>
      if improves st delta step_length then
        Some (LsAccepted (trial_state st delta step_length))
      else if 0.05 <? step_length then
        line_search fuel' st delta (step_length / 2)
      else Some LsFailed
  end.

(** Six trial steps are all the halving from 1 allows. *)
Definition line_search_fuel : nat := 6.

(** The outer [do ... while] (lines 974-1049).  The result carries the
    value of [newton_iteration] on leaving, the number of completed line
    searches.  [fuel] bounds the number of passes through the body. *)
Fixpoint newton_loop (fuel : nat) (newton_iteration : nat) (st : newton_state)
  : option (newton_exit * nat) :=
  match fuel with
  | O => None
  | S fuel' =>
      let df := snd (p_real st) in
      if determinant df <=? 0 then Some (ExitDeterminant, newton_iteration)
      else
        let df_inverse := invert df in
        let delta := apply_tensor df_inverse (f st) in
        match line_search line_search_fuel st delta 1 with
        | None => None
        | Some LsFailed => Some (ExitLineSearch, newton_iteration)
        | Some (LsAccepted st') =>
            let newton_iteration := S newton_iteration in
            if (newton_iteration_limit <? newton_iteration)%nat then
              Some (ExitIterationLimit, newton_iteration)
            else
              let last_f_weighted_norm_square :=
                norm_square (apply_tensor df_inverse (f st')) in
              if eps * eps <? last_f_weighted_norm_square then
                newton_loop fuel' newton_iteration st'
              else Some (ExitConverged (p_unit st'), newton_iteration)
        end
  end.

Definition initial_state (initial_p_unit : Point) : newton_state :=
  let p_real := forward initial_p_unit in
  {| p_unit := initial_p_unit;
     p_real := p_real;
     f := point_sub (fst p_real) p |}.

(** "early out if we already have our point" (line 929). *)
Definition early_out (st : newton_state) : bool :=
  norm_square (f st) <? 1e-24 * tensor_norm_square (snd (p_real st)).

Definition newton_fuel : nat := S newton_iteration_limit.

(** The whole function, with the place it leaves from. *)
Definition newton_run (initial_p_unit : Point) : option (newton_exit * nat) :=
  let st := initial_state initial_p_unit in
  if early_out st then Some (ExitEarly (p_unit st), 0%nat)
  else newton_loop newton_fuel 0 st.

(** The point each exit returns. *)
Definition point_of_exit (e : newton_exit) : Point :=
  match e with
  | ExitEarly q | ExitConverged q => q
  | ExitDeterminant | ExitLineSearch | ExitIterationLimit => invalid_point dim
  end.

(** [do_transform_real_to_unit_cell_internal]: the returned point.  The
    iteration never runs out of [newton_fuel] (see [newton_run_total]
    below), the last case is there for totality only. *)
Definition do_transform_real_to_unit_cell_internal (initial_p_unit : Point)
  : Point :=
  match newton_run initial_p_unit with
  | Some (e, _) => point_of_exit e
  | None => invalid_point dim
  end.

(** **** Properties of the Newton iteration *)

(** The step lengths the line search can try. *)
Definition step_lengths : list float :=
  [1; 0.5; 0.25; 0.125; 0.0625; 0.03125].

(** The Newton step [delta] at a state, and the norm the convergence test
    uses: the new residual weighted by the inverse Jacobian of the state
    the step started from. *)
Definition delta_of (st : newton_state) : Point :=
  apply_tensor (invert (snd (p_real st))) (f st).

Definition weighted_norm_square (st st' : newton_state) : float :=
  norm_square (apply_tensor (invert (snd (p_real st))) (f st')).

(** One pass through the body accepts [st'] from [st]: the determinant
    test lets it through, and [st'] is the trial at the first step length
    that reduces the residual. *)
Definition accepted (st st' : newton_state) : Prop :=
  (determinant (snd (p_real st)) <=? 0) = false /\
  exists s, find (improves st (delta_of st)) step_lengths = Some s /\
            st' = trial_state st (delta_of st) s.

(** [at_loop_head initial n st]: started from [initial], the outer loop
    reaches the top of its body with [newton_iteration = n] in state [st]. *)
Inductive at_loop_head (initial : Point) : nat -> newton_state -> Prop :=
| head_first :
    early_out (initial_state initial) = false ->
    at_loop_head initial 0 (initial_state initial)
| head_next n st st' :
    at_loop_head initial n st ->
    accepted st st' ->
    (S n <= newton_iteration_limit)%nat ->
    (eps * eps <? weighted_norm_square st st') = true ->
    at_loop_head initial (S n) st'.

(** What holds when the function leaves through exit [e] with
    [newton_iteration = n]. *)
Definition exit_condition (initial : Point) (e : newton_exit) (n : nat)
  : Prop :=
  match e with
  | ExitEarly q =>
      early_out (initial_state initial) = true /\ q = initial /\ n = 0%nat
  | ExitDeterminant =>
      exists st, at_loop_head initial n st /\
                 (determinant (snd (p_real st)) <=? 0) = true
  | ExitLineSearch =>
      exists st, at_loop_head initial n st /\
                 (determinant (snd (p_real st)) <=? 0) = false /\
                 Forall (fun s => improves st (delta_of st) s = false)
                        step_lengths
  | ExitIterationLimit =>
      exists st st', at_loop_head initial newton_iteration_limit st /\
                     accepted st st' /\
                     n = S newton_iteration_limit
  | ExitConverged q =>
      exists m st st', at_loop_head initial m st /\
                       accepted st st' /\
                       n = S m /\ (n <= newton_iteration_limit)%nat /\
                       (eps * eps <? weighted_norm_square st st') = false /\
                       q = p_unit st'
  end.

Lemma line_search_spec st delta :
  line_search line_search_fuel st delta 1 =
  Some (match find (improves st delta) step_lengths with
        | Some s => LsAccepted (trial_state st delta s)
        | None => LsFailed
        end).
Proof.
  unfold line_search_fuel, step_lengths. cbn [line_search find].
  destruct (improves st delta 1); [reflexivity|].
  change (0.05 <? 1) with true. change (1 / 2) with 0.5. cbv iota.
  destruct (improves st delta 0.5); [reflexivity|].
  change (0.05 <? 0.5) with true. change (0.5 / 2) with 0.25. cbv iota.
  destruct (improves st delta 0.25); [reflexivity|].
  change (0.05 <? 0.25) with true. change (0.25 / 2) with 0.125. cbv iota.
  destruct (improves st delta 0.125); [reflexivity|].
  change (0.05 <? 0.125) with true. change (0.125 / 2) with 0.0625. cbv iota.
  destruct (improves st delta 0.0625); [reflexivity|].
  change (0.05 <? 0.0625) with true. change (0.0625 / 2) with 0.03125.
  cbv iota.
  destruct (improves st delta 0.03125); [reflexivity|].
  change (0.05 <? 0.03125) with false. reflexivity.
Qed.

Lemma find_none_forall (P : float -> bool) (l : list float) :
  find P l = None <-> Forall (fun s => P s = false) l.
Proof.
  induction l as [|a l IH]; cbn [find].
  - split; [constructor | reflexivity].
  - destruct (P a) eqn:E.
    + split; [discriminate|]. intros F. inversion F; congruence.
    + rewrite IH. split.
      * intros F. constructor; assumption.
      * intros F. inversion F; assumption.
Qed.

(** One pass of [newton_loop], by cases. *)
Lemma newton_loop_step fuel n st :
  newton_loop (S fuel) n st =
  if determinant (snd (p_real st)) <=? 0 then Some (ExitDeterminant, n)
  else match find (improves st (delta_of st)) step_lengths with
       | None => Some (ExitLineSearch, n)
       | Some s =>
           let st' := trial_state st (delta_of st) s in
           if (newton_iteration_limit <? S n)%nat
           then Some (ExitIterationLimit, S n)
           else if eps * eps <? weighted_norm_square st st'
                then newton_loop fuel (S n) st'
                else Some (ExitConverged (p_unit st'), S n)
       end.
Proof.
  cbn [newton_loop].
  destruct (determinant (snd (p_real st)) <=? 0); [reflexivity|].
  fold (delta_of st). rewrite line_search_spec.
  destruct (find (improves st (delta_of st)) step_lengths); reflexivity.
Qed.

Lemma at_loop_head_bound initial n st :
  at_loop_head initial n st -> (n <= newton_iteration_limit)%nat.
Proof. destruct 1; [unfold newton_iteration_limit|]; lia. Qed.

(** From a loop head the rest of the run is the loop with the fuel that
    is left. *)
Lemma newton_run_from_head initial n st :
  at_loop_head initial n st ->
  newton_run initial = newton_loop (newton_fuel - n) n st.
Proof.
  induction 1 as [E | n st st' Hh IH [Hd (s & Hs & ->)] Hn Hw].
  - unfold newton_run. rewrite E. reflexivity.
  - rewrite IH. unfold newton_fuel in *.
    replace (S newton_iteration_limit - n)%nat
      with (S (S newton_iteration_limit - S n))%nat by lia.
    rewrite newton_loop_step, Hd, Hs. cbv zeta.
    assert ((newton_iteration_limit <? S n)%nat = false) as ->
      by (apply Nat.ltb_ge; lia).
    rewrite Hw. reflexivity.
Qed.

(** Every exit condition that holds is the way the run ends. *)
Lemma exit_condition_complete initial e n :
  exit_condition initial e n -> newton_run initial = Some (e, n).
Proof.
  destruct e as [q| | | |q]; cbn [exit_condition].
  - intros (E & -> & ->). unfold newton_run. rewrite E. reflexivity.
  - intros (st & Hh & Hd).
    pose proof (at_loop_head_bound _ _ _ Hh) as Hb.
    rewrite (newton_run_from_head _ _ _ Hh). unfold newton_fuel.
    replace (S newton_iteration_limit - n)%nat
      with (S (newton_iteration_limit - n))%nat by lia.
    rewrite newton_loop_step, Hd. reflexivity.
  - intros (st & Hh & Hd & Hf).
    pose proof (at_loop_head_bound _ _ _ Hh) as Hb.
    rewrite (newton_run_from_head _ _ _ Hh). unfold newton_fuel.
    replace (S newton_iteration_limit - n)%nat
      with (S (newton_iteration_limit - n))%nat by lia.
    rewrite newton_loop_step, Hd.
    apply find_none_forall in Hf. rewrite Hf. reflexivity.
  - intros (st & st' & Hh & [Hd (s & Hs & ->)] & ->).
    rewrite (newton_run_from_head _ _ _ Hh). unfold newton_fuel.
    replace (S newton_iteration_limit - newton_iteration_limit)%nat
      with 1%nat by lia.
    rewrite newton_loop_step, Hd, Hs. cbv zeta.
    assert ((newton_iteration_limit <? S newton_iteration_limit)%nat = true)
      as -> by (apply Nat.ltb_lt; lia).
    reflexivity.
  - intros (m & st & st' & Hh & [Hd (s & Hs & ->)] & -> & Hn & Hw & ->).
    rewrite (newton_run_from_head _ _ _ Hh). unfold newton_fuel.
    replace (S newton_iteration_limit - m)%nat
      with (S (newton_iteration_limit - m))%nat by lia.
    rewrite newton_loop_step, Hd, Hs. cbv zeta.
    assert ((newton_iteration_limit <? S m)%nat = false) as ->
      by (apply Nat.ltb_ge; lia).
    rewrite Hw. reflexivity.
Qed.

(** From every loop head the loop ends, and ends under its exit
    condition. *)
Lemma newton_loop_sound initial fuel n st :
  at_loop_head initial n st ->
  (fuel + n = newton_fuel)%nat ->
  exists e n', newton_loop fuel n st = Some (e, n') /\
               exit_condition initial e n'.
Proof.
  revert n st. induction fuel as [|fuel IH]; intros n st Hh Hf.
  - pose proof (at_loop_head_bound _ _ _ Hh). unfold newton_fuel in Hf. lia.
  - rewrite newton_loop_step.
    destruct (determinant (snd (p_real st)) <=? 0) eqn:Hd.
    { exists ExitDeterminant, n. split; [reflexivity|]. exists st. auto. }
    destruct (find (improves st (delta_of st)) step_lengths) as [s|] eqn:Hs.
    2:{ exists ExitLineSearch, n. split; [reflexivity|]. exists st.
        split; [assumption|]. split; [assumption|].
        apply find_none_forall. assumption. }
    cbv zeta.
    assert (accepted st (trial_state st (delta_of st) s)) as Hacc.
    { split; [assumption|]. exists s. auto. }
    destruct (newton_iteration_limit <? S n)%nat eqn:Hl.
    { apply Nat.ltb_lt in Hl.
      pose proof (at_loop_head_bound _ _ _ Hh).
      assert (n = newton_iteration_limit) as -> by lia.
      exists ExitIterationLimit, (S newton_iteration_limit).
      split; [reflexivity|]. eexists _, _. eauto. }
    apply Nat.ltb_ge in Hl.
    destruct (eps * eps <? weighted_norm_square st _) eqn:Hw.
    + apply IH; [|lia]. eapply head_next; eauto.
    + eexists (ExitConverged _), (S n). split; [reflexivity|].
      exists n, st, (trial_state st (delta_of st) s). auto 10.
Qed.

(** The run always ends within its fuel, under its exit condition. *)
Lemma newton_run_sound initial :
  exists e n, newton_run initial = Some (e, n) /\ exit_condition initial e n.
Proof.
  destruct (early_out (initial_state initial)) eqn:E.
  - exists (ExitEarly initial), 0%nat. unfold newton_run. rewrite E.
    split; [reflexivity|]. cbn. auto.
  - assert (at_loop_head initial 0 (initial_state initial)) as Hh
      by (constructor; assumption).
    destruct (newton_loop_sound initial newton_fuel 0 _ Hh) as (e & n & R & C).
    { lia. }
    exists e, n. split; [|assumption]. unfold newton_run. rewrite E. exact R.
Qed.

Lemma newton_run_total initial :
  exists e n, newton_run initial = Some (e, n).
Proof. destruct (newton_run_sound initial) as (e & n & R & _). eauto. Qed.

(** The counter on leaving: at most 21, and at most 20 on convergence. *)
Lemma exit_condition_count initial e n :
  exit_condition initial e n ->
  (n <= S newton_iteration_limit)%nat /\
  (forall q, e = ExitConverged q -> (1 <= n <= newton_iteration_limit)%nat) /\
  (e = ExitIterationLimit -> n = S newton_iteration_limit).
Proof.
  destruct e as [q| | | |q]; cbn [exit_condition].
  - intros (_ & _ & ->). repeat split; try lia; discriminate.
  - intros (st & Hh & _). pose proof (at_loop_head_bound _ _ _ Hh).
    repeat split; try lia; discriminate.
  - intros (st & Hh & _). pose proof (at_loop_head_bound _ _ _ Hh).
    repeat split; try lia; discriminate.
  - intros (st & st' & _ & _ & ->). repeat split; try lia; discriminate.
  - intros (m & st & st' & _ & _ & -> & Hn & _).
    repeat split; try lia; try discriminate; intros; lia.
Qed.

End Newton.

(** *** Newton iteration for [spacedim == dim + 1] (lines 1059-1179);
    the source has no line search here *)

Record codim1_state : Type := {
  c_p_unit : Point;
  c_f : Point;
  c_df : Tensor2
}.

Definition loop_limit : nat := 10.

Section Codim1.
Context {TA : TensorAlgebra}.
Variable dim : nat.
(** [mdata.compute_shape_function_values] at one point: for every shape
    function its value, gradient and Hessian there. *)
Variable shape_functions : Point -> list (float * Point * Tensor2).
(** [mdata.mapping_support_points] and [cell->diameter()]. *)
Variable points : list Point.
Variable diameter : float.
Variable p : Point.

Definition spacedim_codim1 : nat := S dim.

(** [DF[j]], the sum over the shape functions of
    [grad_phi_k[j] * point_k]. *)
Definition DF (p_unit : Point) (j : nat) : Point :=
  foldl (fun acc e =>
           point_add acc (point_scale (coord (snd (fst (fst e))) j) (snd e)))
        (zero_point spacedim_codim1)
        (zip (shape_functions p_unit) points).

(** [D2F[j][l]], the sum of [hessian_k[j][l] * point_k]. *)
Definition D2F (p_unit : Point) (j l : nat) : Point :=
  foldl (fun acc e =>
           point_add acc
             (point_scale (coord (vertex (snd (fst e)) j) l) (snd e)))
        (zero_point spacedim_codim1)
        (zip (shape_functions p_unit) points).

(** [compute_mapped_location_of_point(mdata)] (lines 741-756). *)
Definition mapped_location (p_unit : Point) : Point :=
  foldl (fun acc e => point_add acc (point_scale (fst (fst (fst e))) (snd e)))
        (zero_point spacedim_codim1)
        (zip (shape_functions p_unit) points).

(** The residual [f] and its derivative [df] at [p_unit]; the source
    evaluates them once before the loop and once in each pass. *)
Definition residual_at (p_unit : Point) : codim1_state :=
  let p_minus_F := point_sub p (mapped_location p_unit) in
  {| c_p_unit := p_unit;
     c_f := map (fun j => scalar_product (DF p_unit j) p_minus_F) (seq 0 dim);
     c_df :=
       map (fun j =>
              map (fun l =>
                     scalar_product (point_opp (DF p_unit j)) (DF p_unit l) +
                     scalar_product (D2F p_unit j l) p_minus_F)
                  (seq 0 dim))
           (seq 0 dim) |}.

Definition eps_codim1 : float := 1e-12 * diameter.

(** [while (f.norm() > eps && loop++ < loop_limit)]: the increment happens
    only when the first test holds.  The result carries the final state,
    the final value of [loop], and the number of passes through the body. *)
Fixpoint codim1_loop (fuel : nat) (loop passes : nat) (st : codim1_state)
  : option (codim1_state * nat * nat) :=
  match fuel with
  | O => None
  | S fuel' =>
      if eps_codim1 <? norm (c_f st) then
        if (loop <? loop_limit)%nat then
          let d := apply_tensor (invert (c_df st)) (c_f st) in
          codim1_loop fuel' (S loop) (S passes)
                      (residual_at (point_sub (c_p_unit st) d))
        else Some (st, S loop, passes)
      else Some (st, loop, passes)
  end.

Definition codim1_fuel : nat := S loop_limit.

Definition codim1_run (initial_p_unit : Point)
  : option (codim1_state * nat * nat) :=
  codim1_loop codim1_fuel 0 0 (residual_at initial_p_unit).

(** [do_transform_real_to_unit_cell_internal_codim1]; the loop never runs
    out of [codim1_fuel] (see [codim1_run_total] below). *)
Definition do_transform_real_to_unit_cell_internal_codim1
  (initial_p_unit : Point) : outcome Point :=
  match codim1_run initial_p_unit with
  | Some (st, loop, _) =>
      AssertThrow (loop <? loop_limit)%nat ExcTransformationFailed ;;
      Returned (c_p_unit st)
  | None => Thrown ExcTransformationFailed
  end.

(** **** Properties of the codimension-one iteration *)

(** From any state the loop ends within the fuel left.  It ends either
    because the residual test failed after [k] passes, or because [loop]
    reached the limit while the residual was still too large. *)
Lemma codim1_loop_sound fuel loop passes st :
  (fuel + loop = codim1_fuel)%nat ->
  (loop <= loop_limit)%nat ->
  exists st' loop' k,
    codim1_loop fuel loop passes st = Some (st', loop', (passes + k)%nat) /\
    (loop + k <= loop_limit)%nat /\
    (((eps_codim1 <? norm (c_f st')) = false /\ loop' = (loop + k)%nat) \/
     ((eps_codim1 <? norm (c_f st')) = true /\
      (loop + k)%nat = loop_limit /\ loop' = S loop_limit)).
Proof.
  revert loop passes st.
  induction fuel as [|fuel IH]; intros loop passes st Hf Hl.
  - unfold codim1_fuel, loop_limit in *. lia.
  - cbn [codim1_loop]. unfold codim1_fuel in Hf.
    destruct (eps_codim1 <? norm (c_f st)) eqn:En.
    + destruct (loop <? loop_limit)%nat eqn:El.
      * apply Nat.ltb_lt in El.
        destruct (IH (S loop) (S passes)
                     (residual_at
                        (point_sub (c_p_unit st)
                           (apply_tensor (invert (c_df st)) (c_f st)))))
          as (st' & loop' & k & R & Hk & Hc); [unfold codim1_fuel; lia|lia|].
        exists st', loop', (S k). rewrite R.
        replace (passes + S k)%nat with (S passes + k)%nat by lia.
        split; [reflexivity|]. split; [lia|].
        replace (loop + S k)%nat with (S loop + k)%nat by lia. exact Hc.
      * apply Nat.ltb_ge in El.
        exists st, (S loop), 0%nat. rewrite Nat.add_0_r.
        split; [reflexivity|]. rewrite Nat.add_0_r.
        assert (loop = loop_limit) as -> by (unfold loop_limit in *; lia).
        split; [lia|]. right. auto.
    + exists st, loop, 0%nat. rewrite !Nat.add_0_r.
      split; [reflexivity|]. split; [lia|]. left. auto.
Qed.

Lemma codim1_run_total initial_p_unit :
  exists st loop passes,
    codim1_run initial_p_unit = Some (st, loop, passes) /\
    (passes <= loop_limit)%nat /\
    do_transform_real_to_unit_cell_internal_codim1 initial_p_unit =
      (if (loop <? loop_limit)%nat then Returned (c_p_unit st)
       else Thrown ExcTransformationFailed) /\
    ((loop <? loop_limit)%nat = true ->
     (eps_codim1 <? norm (c_f st)) = false).
Proof.
  destruct (codim1_loop_sound codim1_fuel 0 0 (residual_at initial_p_unit))
    as (st & loop & k & R & Hk & Hc); [lia|unfold loop_limit; lia|].
  exists st, loop, k. cbn [Nat.add] in *.
  unfold do_transform_real_to_unit_cell_internal_codim1, codim1_run.
  rewrite R. split; [reflexivity|]. split; [assumption|]. split.
  - destruct (loop <? loop_limit)%nat; reflexivity.
  - intros Hl. apply Nat.ltb_lt in Hl.
    destruct Hc as [[E _]|(_ & _ & ->)]; [assumption|lia].
Qed.

(** The count of the passes decides the outcome of
    [do_transform_real_to_unit_cell_internal_codim1]: the point is
    returned exactly when the loop made fewer than [loop_limit] passes,
    and then the residual is not above the tolerance; after [loop_limit]
    passes the call throws [ExcTransformationFailed], also when the
    residual of the last pass meets the test (the counter then equals
    the limit, which [AssertThrow(loop < loop_limit)] rejects). *)
Theorem codim1_outcome_by_passes initial_p_unit :
  exists st loop passes,
    codim1_run initial_p_unit = Some (st, loop, passes) /\
    (passes <= loop_limit)%nat /\
    (do_transform_real_to_unit_cell_internal_codim1 initial_p_unit =
       Returned (c_p_unit st) <-> (passes < loop_limit)%nat) /\
    (do_transform_real_to_unit_cell_internal_codim1 initial_p_unit =
       Thrown ExcTransformationFailed <-> passes = loop_limit) /\
    ((passes < loop_limit)%nat ->
     (eps_codim1 <? norm (c_f st)) = false /\ loop = passes) /\
    (passes = loop_limit ->
     loop = (if eps_codim1 <? norm (c_f st) then S loop_limit
             else loop_limit)).
Proof.
  destruct (codim1_loop_sound codim1_fuel 0 0 (residual_at initial_p_unit))
    as (st & loop & k & R & Hk & Hc); [lia|unfold loop_limit; lia|].
  exists st, loop, k. cbn [Nat.add] in *.
  assert ((loop <? loop_limit)%nat = true <-> (k < loop_limit)%nat) as Hlt.
  { rewrite Nat.ltb_lt. destruct Hc as [[_ ->]|(_ & -> & ->)]; lia. }
  assert (do_transform_real_to_unit_cell_internal_codim1 initial_p_unit =
            (if (loop <? loop_limit)%nat then Returned (c_p_unit st)
             else Thrown ExcTransformationFailed)) as ->.
  { unfold do_transform_real_to_unit_cell_internal_codim1, codim1_run.
    rewrite R. destruct (loop <? loop_limit)%nat; reflexivity. }
  split; [exact R|]. split; [exact Hk|].
  split; [|split; [|split]].
  - destruct (loop <? loop_limit)%nat.
    + split; [intros _; apply Hlt; reflexivity|reflexivity].
    + split; [discriminate|]. intros H. apply Hlt in H. discriminate.
  - destruct (loop <? loop_limit)%nat.
    + split; [discriminate|].
      intros ->. destruct Hlt as [H _]. specialize (H eq_refl). lia.
    + split; [|reflexivity]. intros _.
      assert (~ (k < loop_limit)%nat)
        by (intros H; apply Hlt in H; discriminate).
      lia.
  - intros Hkl. destruct Hc as [[E ->]|(_ & -> & _)]; [auto|lia].
  - intros ->. destruct Hc as [[-> ->]|(-> & _ & ->)]; reflexivity.
Qed.

End Codim1.

(** C8 (amended).  Every Newton-type inversion terminates.  For
    [dim == spacedim] the run ends within its 21 passes: it leaves with
    [newton_iteration <= 21]; a converged point is returned only with
    [1 <= newton_iteration <= 20]; the exit for the iteration limit is
    taken with [newton_iteration = 21], that is after a 21st complete
    pass whose result is discarded.  Each line search ends within six
    trial steps.  For the codimension-one case the loop body runs at most
    [loop_limit = 10] times, after which the function has converged or
    throws [ExcTransformationFailed]: the point it returns has a residual
    norm of at most [1e-12 * diameter], where that norm and the
    tolerance are numbers. *)
Theorem newton_inversions_terminate
  (TA : TensorAlgebra) (dim : nat) (forward : Point -> Point * Tensor2)
  (shape_functions : Point -> list (float * Point * Tensor2))
  (points : list Point) (diameter : float) (p initial_p_unit : Point) :
  (exists e n,
      newton_run dim forward p initial_p_unit = Some (e, n) /\
      (n <= 21)%nat /\
      (forall q, e = ExitConverged q -> (1 <= n <= 20)%nat) /\
      (e = ExitIterationLimit -> n = 21%nat)) /\
  (forall st delta,
      is_Some (line_search dim forward p line_search_fuel st delta 1)) /\
  (exists st loop passes,
      codim1_run dim shape_functions points diameter p initial_p_unit =
        Some (st, loop, passes) /\
      (passes <= 10)%nat /\
      ((do_transform_real_to_unit_cell_internal_codim1 dim shape_functions
          points diameter p initial_p_unit = Returned (c_p_unit st) /\
        (PrimFloat.is_nan (eps_codim1 diameter) = false ->
         PrimFloat.is_nan (norm (c_f st)) = false ->
         (norm (c_f st) <=? eps_codim1 diameter) = true)) \/
       do_transform_real_to_unit_cell_internal_codim1 dim shape_functions
          points diameter p initial_p_unit = Thrown ExcTransformationFailed)).
Proof.
  split; [|split].
  - destruct (newton_run_sound dim forward p initial_p_unit)
      as (e & n & R & C).
    exists e, n. split; [exact R|].
    exact (exit_condition_count dim forward p initial_p_unit e n C).
  - intros st delta. rewrite line_search_spec. eexists. reflexivity.
  - destruct (codim1_run_total dim shape_functions points diameter p
                initial_p_unit) as (st & loop & passes & R & Hp & Ho & Hc).
    exists st, loop, passes. split; [exact R|]. split; [exact Hp|].
    rewrite Ho. destruct (loop <? loop_limit)%nat.
    + left. split; [reflexivity|]. intros He Hn.
      apply not_below_at_most; [exact He|exact Hn|]. apply Hc. reflexivity.
    + right. reflexivity.
Qed.

(** *** Runs of the iteration on concrete cells *)

(** The two shape functions of a degree-1 mapping, each with its
    derivative. *)
Definition linear_polynomials : list Polynomial :=
  [fun x => (1 - x, -1); fun x => (x, 1)].

(** A quadrilateral whose map is (xi - eta, xi * eta): the Jacobian
    determinant xi + eta vanishes at the vertex (0, 0). *)
Definition folded_cell : list Point := [[0; 0]; [1; 0]; [-1; 0]; [0; 1]].

(** Inverting the vertex (0, 0) of [folded_cell] from the mid point: every
    pass halves the error, the convergence test is not met, and the
    function leaves through the iteration limit with
    [newton_iteration = 21], after 21 accepted Newton steps. *)
Lemma iteration_limit_counterexample :
  let forward :=
    compute_mapped_location_of_point 2 folded_cell linear_polynomials [] in
  newton_run (TA := small_tensors) 2 forward [0; 0] [0.5; 0.5] =
    Some (ExitIterationLimit, 21%nat) /\
  (exists st st',
      at_loop_head (TA := small_tensors) 2 forward [0; 0] [0.5; 0.5] 20 st /\
      accepted (TA := small_tensors) 2 forward [0; 0] st st') /\
  do_transform_real_to_unit_cell_internal (TA := small_tensors) 2 forward
    [0; 0] [0.5; 0.5] = [infinity; 0].
Proof.
  cbv zeta.
  assert (newton_run (TA := small_tensors) 2
            (compute_mapped_location_of_point 2 folded_cell
               linear_polynomials []) [0; 0] [0.5; 0.5] =
          Some (ExitIterationLimit, 21%nat)) as R
    by (vm_compute; reflexivity).
  split; [exact R|]. split.
  - destruct (newton_run_sound (TA := small_tensors) 2
                (compute_mapped_location_of_point 2 folded_cell
                   linear_polynomials []) [0; 0] [0.5; 0.5])
      as (e & n & R' & C).
    rewrite R in R'. injection R' as <- <-.
    destruct C as (st & st' & Hh & Ha & _). exists st, st'. auto.
  - unfold do_transform_real_to_unit_cell_internal. rewrite R. reflexivity.
Qed.

End MappingQGenericImplementation.

(** ** [MappingQGeneric]: point queries *)

Module MappingQGeneric.

Import MappingQGenericImplementation.
Local Open Scope float_scope.

Section PointQueries.
Context {L : Type} {LD : LongDouble L} {TA : TensorAlgebra}.
(** The mapping object: its template arguments and members. *)
Variables dim spacedim polynomial_degree : nat.
Variable preserves_vertex_locations : bool.
Variable polynomials_1d : list Polynomial.
Variable renumber_lexicographic_to_hierarchic : list nat.
Variable shape_functions : Point -> list (float * Point * Tensor2).
(** The cell iterator and what the mesh answers about a cell. *)
Variable Cell : Type.
Variable get_vertices : Cell -> list Point.
Variable compute_mapping_support_points : Cell -> list Point.
Variable real_to_unit_cell_affine_approximation : Cell -> Point -> Point.
Variable diameter : Cell -> float.
(** [GeometryInfo<dim>::project_to_unit_cell] and the inverse of
    [GridTools::affine_cell_approximation] over the first support points. *)
Variable project_to_unit_cell : Point -> Point.
Variable affine_initial_guess : list Point -> Point -> Point.
(** Whether [Assert] is compiled in. *)
Variable debug : bool.

Definition forward (cell : Cell) : Point -> Point * Tensor2 :=
  compute_mapped_location_of_point dim (compute_mapping_support_points cell)
    polynomials_1d renumber_lexicographic_to_hierarchic.


(** [transform_real_to_unit_cell_internal] and its specialisations
    (lines 2041-2180). *)
Definition transform_real_to_unit_cell_internal
  (cell : Cell) (p : Point) (initial_p_unit : Point) : outcome Point :=
  match dim, spacedim with
  | 1%nat, 1%nat | 2%nat, 2%nat | 3%nat, 3%nat =>
      Returned (do_transform_real_to_unit_cell_internal dim (forward cell) p
                  initial_p_unit)
  | 1%nat, 2%nat | 2%nat, 3%nat =>
      do_transform_real_to_unit_cell_internal_codim1 dim shape_functions
        (compute_mapping_support_points cell) (diameter cell) p initial_p_unit
  | 1%nat, 3%nat =>
      Assert debug false ExcNotImplemented ;; Returned (zero_point dim)
  | _, _ =>
      Assert debug false ExcInternalError ;; Returned (zero_point dim)
  end.

(** "only take the computed point if it lies inside the reference cell"
    (lines 2241-2243). *)
Definition inside_reference_cell (point : Point) : bool :=
  let eps := 1e-15 in
  (- eps <=? coord point 1) && (coord point 1 <=? 1 + eps) &&
  (- eps <=? coord point 0) && (coord point 0 <=? 1 + eps).

(** The [try] block of lines 2218-2262: [Some] is a point returned from
    inside it, [None] falls through to the Newton code, also when the
    closed formula threw [ExcTransformationFailed]. *)
Definition exact_formula (cell : Cell) (p : Point) : outcome (option Point) :=
  if preserves_vertex_locations && (polynomial_degree =? 1)%nat &&
     ((dim =? 1)%nat || ((dim =? 2)%nat && (dim =? spacedim)%nat))
  then
    let vertices := get_vertices cell in
    match dim with
    | 1%nat =>
        if (spacedim =? 1)%nat
        then Returned (Some (MappingQ1.transform_real_to_unit_cell_1d vertices p))
        else Returned None
    | 2%nat =>
        match MappingQ1.transform_real_to_unit_cell_2d (L:=L) vertices p with
        | Returned point =>
            if inside_reference_cell point then Returned (Some point)
            else Returned None
        | Thrown ExcTransformationFailed => Returned None
        | Thrown e => Thrown e
        | Aborted e => Aborted e
        | Undefined => Undefined
        end
    | _ => Assert debug false ExcInternalError ;; Returned None
    end
  else Returned None.

(** The start value of the Newton iteration (lines 2273-2291): the affine
    approximation, or the mid point of the reference cell, projected back
    into the reference cell. *)
Definition newton_initial_guess (cell : Cell) (p : Point) : Point :=
  project_to_unit_cell
    (if preserves_vertex_locations
     then real_to_unit_cell_affine_approximation cell p
     else replicate dim 0.5).

(** [transform_real_to_unit_cell] (lines 2184-2301). *)
Definition transform_real_to_unit_cell (cell : Cell) (p : Point)
  : outcome Point :=
  exact ← exact_formula cell p;
  match exact with
  | Some point => Returned point
  | None =>
      if preserves_vertex_locations && (dim =? 1)%nat &&
         (polynomial_degree =? 1)%nat
      then Returned (real_to_unit_cell_affine_approximation cell p)
      else
        let initial_p_unit := newton_initial_guess cell p in
        p_unit ← transform_real_to_unit_cell_internal cell p initial_p_unit;
        (if coord p_unit 0 =? infinity
         then AssertThrow false ExcTransformationFailed
         else Returned tt) ;;
        Returned p_unit
  end.

(** The loop of [transform_points_real_to_unit_cell] (lines 2325-2346)
    over the indices that are left, with the [try] and [catch] of each
    pass. *)
Fixpoint points_loop (cell : Cell) (support_points : list Point)
  (todo : list (nat * Point)) (unit_points : list Point)
  : outcome (list Point) :=
  match todo with
  | [] => Returned unit_points
  | (i, real_point) :: rest =>
      let attempt : outcome Point :=
        let initial_guess := affine_initial_guess support_points real_point in
        Returned
          (do_transform_real_to_unit_cell_internal dim
             (compute_mapped_location_of_point dim support_points
                polynomials_1d renumber_lexicographic_to_hierarchic)
             real_point (project_to_unit_cell initial_guess)) in
      match attempt with
      | Returned q =>
          if (i <? length unit_points)%nat
          then points_loop cell support_points rest (<[i := q]> unit_points)
          else Undefined
      | Thrown ExcTransformationFailed =>
          points_loop cell support_points rest
            (<[i := <[0%nat := infinity]> (vertex unit_points i)]> unit_points)
      | Thrown e => Thrown e
      | Aborted e => Aborted e
      | Undefined => Undefined
      end
  end.

(** [transform_points_real_to_unit_cell] (lines 2305-2347); the result is
    the content of [unit_points] on return. *)
Definition transform_points_real_to_unit_cell (cell : Cell)
  (real_points unit_points : list Point) : outcome (list Point) :=
  Assert debug (length real_points =? length unit_points)%nat
    ExcDimensionMismatch ;;
  points_loop cell (compute_mapping_support_points cell)
    (imap pair real_points) unit_points.

(** **** Properties of the point queries *)

Lemma coord_invalid_point d :
  (1 <= d)%nat -> coord (invalid_point d) 0 = infinity.
Proof. destruct d; [lia|]. reflexivity. Qed.

(** The points the loop over the real points writes: each entry is the
    result of the Newton iteration for the real point of the same index. *)
Definition unit_point_for (cell : Cell) (real_point : Point) : Point :=
  do_transform_real_to_unit_cell_internal dim (forward cell) real_point
    (project_to_unit_cell
       (affine_initial_guess (compute_mapping_support_points cell) real_point)).

Lemma points_loop_spec cell real_points done unit_points :
  length unit_points = length real_points ->
  points_loop cell (compute_mapping_support_points cell)
    (imap (fun i x => (length done + i, x)%nat) real_points)
    (done ++ unit_points) =
  Returned (done ++ map (unit_point_for cell) real_points).
Proof.
  revert done unit_points.
  induction real_points as [|x l IH]; intros done [|u up] Hl;
    try discriminate.
  - reflexivity.
  - cbn [imap points_loop map].
    assert ((length done + 0 <? length (done ++ u :: up))%nat = true) as ->
      by (apply Nat.ltb_lt; rewrite length_app; cbn; lia).
    rewrite insert_app_r.
    fold (forward cell). fold (unit_point_for cell x).
    change (done ++ <[0%nat:=unit_point_for cell x]> (u :: up))
      with (done ++ [unit_point_for cell x] ++ up).
    rewrite (app_assoc done).
    rewrite (imap_ext _
      (fun i y => (length (done ++ [unit_point_for cell x]) + i, y)%nat) l).
    2:{ intros i y _. cbn. rewrite length_app. cbn. f_equal. lia. }
    rewrite IH by (cbn in Hl; lia).
    rewrite <- app_assoc. reflexivity.
Qed.

(** C2 (amended).  The Newton inversion for [dim == spacedim] first tests
    the initial guess and returns it at once when
    [|f|^2 < 1e-24 |J|^2]; no determinant is looked at on this path.
    Otherwise it returns the failure value exactly when the determinant
    of the Jacobian at the current iterate is [<= 0], or none of the step
    lengths 1, 1/2, ..., 1/32 reduces [|f|^2], or the iteration counter
    exceeds 20; in the remaining case it returns the point the last line
    search accepted, at which the residual weighted by the inverse
    Jacobian of the iterate before has squared norm not above [eps^2].
    The run leaves through exactly one exit, the one whose condition
    holds.  The public function hands the failure value on as a thrown
    [ExcTransformationFailed], and returns any other point whose first
    coordinate is not the sentinel. *)
Theorem newton_failure_exactly_when (cell : Cell) (p initial_p_unit : Point) :
  dim = spacedim ->
  (1 <= dim <= 3)%nat ->
  exists e n,
    newton_run dim (forward cell) p initial_p_unit = Some (e, n) /\
    exit_condition dim (forward cell) p initial_p_unit e n /\
    (forall e' n',
        exit_condition dim (forward cell) p initial_p_unit e' n' ->
        e' = e /\ n' = n) /\
    transform_real_to_unit_cell_internal cell p initial_p_unit =
      Returned (point_of_exit dim e) /\
    (exit_is_failure e = true -> point_of_exit dim e = invalid_point dim) /\
    (initial_p_unit = newton_initial_guess cell p ->
     exact_formula cell p = Returned None ->
     preserves_vertex_locations && (dim =? 1)%nat &&
       (polynomial_degree =? 1)%nat = false ->
     (exit_is_failure e = true ->
      transform_real_to_unit_cell cell p = Thrown ExcTransformationFailed) /\
     ((coord (point_of_exit dim e) 0 =? infinity) = false ->
      transform_real_to_unit_cell cell p = Returned (point_of_exit dim e))).
Proof.
  intros Hsq Hd.
  destruct (newton_run_sound dim (forward cell) p initial_p_unit)
    as (e & n & R & C).
  exists e, n. split; [exact R|]. split; [exact C|].
  assert (transform_real_to_unit_cell_internal cell p initial_p_unit =
          Returned (point_of_exit dim e)) as Hint.
  { unfold transform_real_to_unit_cell_internal,
      do_transform_real_to_unit_cell_internal.
    rewrite R, <- Hsq.
    destruct dim as [|[|[|[|d]]]]; try lia; reflexivity. }
  split; [|split; [exact Hint|split]].
  - intros e' n' C'.
    apply exit_condition_complete in C'. rewrite R in C'.
    injection C'. auto.
  - destruct e; try discriminate; reflexivity.
  - intros -> Hex Hone. unfold transform_real_to_unit_cell.
    rewrite Hex. cbn [mbind outcome_bind bind]. rewrite Hone.
    cbv zeta. rewrite Hint. cbn [mbind outcome_bind bind]. split.
    + intros Hf.
      assert (point_of_exit dim e = invalid_point dim) as ->
        by (destruct e; try discriminate; reflexivity).
      rewrite coord_invalid_point by lia. reflexivity.
    + intros ->. reflexivity.
Qed.

(** C10.  [transform_points_real_to_unit_cell] never throws: for input
    arrays of equal length it returns, and entry [i] of the output is the
    result of the Newton inversion of real point [i] alone, started from
    its own projected affine guess.  When that inversion leaves through a
    failure exit the entry is the failure value, whose first coordinate is
    positive infinity; otherwise it is the point the inversion returned. *)
Theorem transform_points_never_throws (cell : Cell)
  (real_points unit_points : list Point) :
  length real_points = length unit_points ->
  (1 <= dim)%nat ->
  exists out,
    transform_points_real_to_unit_cell cell real_points unit_points =
      Returned out /\
    length out = length real_points /\
    forall i real_point,
      real_points !! i = Some real_point ->
      exists e n,
        newton_run dim (forward cell) real_point
          (project_to_unit_cell
             (affine_initial_guess (compute_mapping_support_points cell)
                real_point)) = Some (e, n) /\
        out !! i = Some (point_of_exit dim e) /\
        (exit_is_failure e = true ->
         coord (point_of_exit dim e) 0 = infinity) /\
        (forall q, point_of_exit dim e = q -> exit_is_failure e = false ->
                   e = ExitEarly q \/ e = ExitConverged q).
Proof.
  intros Hl Hd.
  exists (map (unit_point_for cell) real_points).
  split; [|split].
  - unfold transform_points_real_to_unit_cell, Assert.
    rewrite Hl, Nat.eqb_refl, andb_false_r.
    cbn [mbind outcome_bind bind].
    exact (points_loop_spec cell real_points [] unit_points (eq_sym Hl)).
  - apply length_map.
  - intros i real_point Hi.
    destruct (newton_run_sound dim (forward cell) real_point
                (project_to_unit_cell
                   (affine_initial_guess
                      (compute_mapping_support_points cell) real_point)))
      as (e & n & R & _).
    exists e, n. split; [exact R|]. split; [|split].
    + rewrite list_lookup_fmap, Hi. cbn. f_equal.
      unfold unit_point_for, do_transform_real_to_unit_cell_internal.
      rewrite R. reflexivity.
    + intros Hf.
      assert (point_of_exit dim e = invalid_point dim) as ->
        by (destruct e; try discriminate; reflexivity).
      apply coord_invalid_point, Hd.
    + intros q <- Hf. destruct e; try discriminate; auto.
Qed.


End PointQueries.

(** *** The point queries on concrete cells *)

(** A degree-1 mapping in two dimensions over cells given by their
    vertices; the Newton code is reached because the mapping does not
    preserve vertex locations, started from the mid point. *)
Definition unit_square : list Point := [[0; 0]; [1; 0]; [0; 1]; [1; 1]].

(** The unit interval run through from 1 to 0: its Jacobian is -1. *)
Definition inverted_interval : list Point := [[1]; [0]].

(** The rectangle [0,1] x [0,2^-10], and a point 2^-40 above the image of
    its mid point. *)
Definition flat_cell : list Point :=
  [[0; 0]; [1; 0]; [0; 0x1p-10]; [1; 0x1p-10]].

Definition flat_cell_point : Point := [0.5; 0x1p-11 + 0x1p-40].

(** The early return looks at no determinant and applies a test of its
    own.  On [inverted_interval] the determinant at the first iterate is
    -1, yet the start point is returned, not the failure value.  On
    [flat_cell] the start point is returned although its residual,
    weighted by the inverse Jacobian, has squared norm 2^-60, above
    [eps^2]: the point is 2^-30 away from the exact preimage. *)
Lemma early_return_counterexample :
  let forward1 :=
    compute_mapped_location_of_point 1 inverted_interval linear_polynomials
      [] in
  let forward2 :=
    compute_mapped_location_of_point 2 flat_cell linear_polynomials [] in
  let start := initial_state forward2 flat_cell_point [0.5; 0.5] in
  ((determinant (TensorAlgebra := small_tensors) (snd (forward1 [0.5])) <=? 0)
     = true /\
   newton_run (TA := small_tensors) 1 forward1 [0.5] [0.5] =
     Some (ExitEarly [0.5], 0%nat) /\
   do_transform_real_to_unit_cell_internal (TA := small_tensors) 1 forward1
     [0.5] [0.5] = [0.5]) /\
  (newton_run (TA := small_tensors) 2 forward2 flat_cell_point [0.5; 0.5] =
     Some (ExitEarly [0.5; 0.5], 0%nat) /\
   weighted_norm_square (TA := small_tensors) start start = 0x1p-60 /\
   (eps * eps <? weighted_norm_square (TA := small_tensors) start start)
     = true).
Proof. vm_compute. repeat split; reflexivity. Qed.

(** The theorem on the Newton exits, at the unit square and the image of
    (0.25, 0.5). *)
Lemma newton_failure_exactly_when_witness :
  (2 = 2)%nat /\ (1 <= 2 <= 3)%nat /\
  exists e n,
    newton_run (TA := small_tensors) 2
      (forward 2 linear_polynomials [] (list Point) id unit_square)
      [0.25; 0.5] [0.5; 0.5] = Some (e, n) /\
    exit_condition (TA := small_tensors) 2
      (forward 2 linear_polynomials [] (list Point) id unit_square)
      [0.25; 0.5] [0.5; 0.5] e n /\
    transform_real_to_unit_cell_internal (TA := small_tensors) 2 2
      linear_polynomials [] (fun _ => []) (list Point) id (fun _ => 1) true
      unit_square [0.25; 0.5] [0.5; 0.5] = Returned (point_of_exit 2 e).
Proof.
  split; [reflexivity|]. split; [lia|].
  destruct (newton_failure_exactly_when (L := float) (TA := small_tensors)
              2 2 1 false linear_polynomials [] (fun _ => []) (list Point)
              id id (fun _ q => q) (fun _ => 1) id true
              unit_square [0.25; 0.5] [0.5; 0.5] eq_refl
              (conj (le_S 1 1 (le_n 1)) (le_S 2 2 (le_n 2))))
    as (e & n & R & C & _ & T & _).
  exists e, n. split; [exact R|]. split; [exact C|exact T].
Defined.

(** The theorem on the loop over the points, at the unit interval and
    three points, the last of them the image of no reference point the
    iteration finds. *)
Lemma transform_points_never_throws_witness :
  length [[0.25]; [0.5]; [nan]] = length [[0]; [0]; [0]] /\ (1 <= 1)%nat /\
  exists out,
    transform_points_real_to_unit_cell (TA := small_tensors) 1
      linear_polynomials [] (list Point) id id (fun _ q => q) true
      [[0]; [1]] [[0.25]; [0.5]; [nan]] [[0]; [0]; [0]] = Returned out /\
    out = [[0.25]; [0.5]; [infinity]].
Proof.
  split; [reflexivity|]. split; [lia|].
  destruct (transform_points_never_throws (TA := small_tensors) 1
              linear_polynomials [] (list Point) id id (fun _ q => q) true
              [[0]; [1]] [[0.25]; [0.5]; [nan]] [[0]; [0]; [0]]
              eq_refl (le_n 1))
    as (out & R & _).
  exists out. split; [exact R|].
  assert (transform_points_real_to_unit_cell (TA := small_tensors) 1
            linear_polynomials [] (list Point) id id (fun _ q => q) true
            [[0]; [1]] [[0.25]; [0.5]; [nan]] [[0]; [0]; [0]] =
          Returned [[0.25]; [0.5]; [infinity]]) as R'
    by (vm_compute; reflexivity).
  rewrite R' in R. injection R as <-. reflexivity.
Defined.





(** *** [fill_fe_values] and the reuse of cached data *)




(** The bits of [UpdateFlags] these functions test; a set of flags is
    its membership test, [update_flags & flag]. *)
Inductive UpdateFlag : Type :=
| update_quadrature_points
| update_contravariant_transformation
| update_covariant_transformation
| update_volume_elements
| update_jacobian_grads
| update_jacobian_pushed_forward_grads
| update_jacobian_2nd_derivatives
| update_jacobian_pushed_forward_2nd_derivatives
| update_jacobian_3rd_derivatives
| update_jacobian_pushed_forward_3rd_derivatives
| update_normal_vectors
| update_JxW_values
| update_jacobians
| update_inverse_jacobians.


(** The vector [v] after
    [for (point = 0; point < n; ++point) v[point] = g(point);]
    when [v] has at least [n] entries. *)
Definition assign_each {A : Type} (n : nat) (g : nat -> A) (v : list A)
  : list A :=
  foldl (fun v point => <[point := g point]> v) v (seq 0 n).





Section FillFEValues.
Context {TA : TensorAlgebra}.
(** The tensor classes of the higher derivatives. *)
Variables DerivativeForm2 DerivativeForm3 DerivativeForm4 : Type.
Variables Tensor3 Tensor4 Tensor5 : Type.
(** The mapping object. *)
Variables dim spacedim polynomial_degree : nat.
(** The shape-function tables of the internal data, [data.shape(point, k)]
    and [data.derivative(point, k)]. *)
Variable shape : nat -> nat -> float.
Variable derivative : nat -> nat -> Point.
(** Members of [DerivativeForm<1,dim,spacedim>]. *)
Variable covariant_form : Tensor2 -> Tensor2.
Variable df_determinant : Tensor2 -> float.
Variable df_transpose : Tensor2 -> Tensor2.
(** What the loops over the second, third and fourth shape derivatives
    store for one quadrature point, from the support points and, for the
    pushed-forward forms, from [data.covariant[point]]. *)
Variable jacobian_grad_at : list Point -> nat -> DerivativeForm2.
Variable pushed_forward_grad_at : list Point -> Tensor2 -> nat -> Tensor3.
Variable jacobian_2nd_derivative_at : list Point -> nat -> DerivativeForm3.
Variable pushed_forward_2nd_derivative_at :
  list Point -> Tensor2 -> nat -> Tensor4.
Variable jacobian_3rd_derivative_at : list Point -> nat -> DerivativeForm4.
Variable pushed_forward_3rd_derivative_at :
  list Point -> Tensor2 -> nat -> Tensor5.
(** The sum-factorised evaluation of the tensor-product path and the
    shape information it reads. *)
Variable tensor_quadrature_point_at : list Point -> nat -> Point.
Variable tensor_jacobian_at : list Point -> nat -> Tensor2.
Variable tensor_jacobian_grad_at : list Point -> nat -> DerivativeForm2.
Variable tensor_symmetric_collocation : bool.
Variable lexicographic_numbering : list nat.
Variable shape_info_n_q_points : nat.
(** The cell and the quadrature rule. *)
Variable Cell : Type.
Variable compute_mapping_support_points : Cell -> list Point.
Variable diameter : Cell -> float.
Variable direction_flag : Cell -> bool.
(** [cross_product_2d(-DX_t[0])] or [cross_product_3d(DX_t[0], DX_t[1])],
    and [n /= n.norm()] of the tensor header. *)
Variable cell_normal : Tensor2 -> Point.
Variable normalized : Point -> Point.
Variable debug : bool.



























(** **** Properties of [fill_fe_values] *)





Lemma length_assign_from {A : Type} (h : nat -> A) (todo : list nat) v :
  length (foldl (fun v point => <[point := h point]> v) v todo) = length v.
Proof.
  revert v. induction todo as [|p todo IH]; intros v; [reflexivity|].
  cbn [foldl]. rewrite IH. apply length_insert.
Qed.

Lemma length_assign_each {A : Type} n (h : nat -> A) v :
  length (assign_each n h v) = length v.
Proof. apply length_assign_from. Qed.


























(** ***** Calls that return *)











End FillFEValues.

(** *** Calls of [fill_fe_values] on the interval [2,3] *)





End MappingQGeneric.

(** ** [MappingQGeneric::requires_update_flags] *)

Module MappingQGenericData.

(** The flags of [UpdateFlags] that the functions below name. *)
Inductive UpdateFlag : Type :=
| update_boundary_forms
| update_quadrature_points
| update_JxW_values
| update_normal_vectors
| update_jacobians
| update_jacobian_grads
| update_inverse_jacobians
| update_covariant_transformation
| update_contravariant_transformation
| update_volume_elements
| update_jacobian_pushed_forward_grads
| update_jacobian_2nd_derivatives
| update_jacobian_pushed_forward_2nd_derivatives
| update_jacobian_3rd_derivatives
| update_jacobian_pushed_forward_3rd_derivatives.

#[global] Instance UpdateFlag_eq_dec : EqDecision UpdateFlag.
Proof. solve_decision. Defined.

Section Flags.
(** [UpdateFlags] is an enumeration over [unsigned int] whose named
    values are single bits; [bit] gives the position of each.  [a | b] and
    [a & b] are the bitwise operations, and [if (a & b)] tests the result
    against zero. *)
Variable bit : UpdateFlag -> nat.
Hypothesis bit_injective : forall f g, bit f = bit g -> f = g.

Definition mask (f : UpdateFlag) : Z := Z.shiftl 1 (Z.of_nat (bit f)).

Definition any_of (flags masks : Z) : bool :=
  negb (Z.land flags masks =? 0)%Z.

Local Infix ".|" := Z.lor (at level 40, left associativity).

(** One pass of the loop of [requires_update_flags] (lines 2363-2401). *)
Definition requires_pass (out : Z) : Z :=
  let out :=
    if any_of out (mask update_JxW_values .| mask update_normal_vectors)
    then out .| mask update_boundary_forms else out in
  let out :=
    if any_of out (mask update_covariant_transformation .|
                   mask update_JxW_values .|
                   mask update_jacobians .| mask update_jacobian_grads .|
                   mask update_boundary_forms .| mask update_normal_vectors)
    then out .| mask update_contravariant_transformation else out in
  let out :=
    if any_of out (mask update_inverse_jacobians .|
                   mask update_jacobian_pushed_forward_grads .|
                   mask update_jacobian_pushed_forward_2nd_derivatives .|
                   mask update_jacobian_pushed_forward_3rd_derivatives)
    then out .| mask update_covariant_transformation else out in
  let out :=
    if any_of out (mask update_contravariant_transformation)
    then out .| mask update_volume_elements else out in
  let out :=
    if any_of out (mask update_normal_vectors)
    then out .| mask update_volume_elements else out in
  out.

(** [requires_update_flags] (lines 2351-2404). *)
Definition requires_update_flags (in_ : Z) : Z :=
  Nat.iter 5 requires_pass in_.

(** [flags & flag], as a truth value. *)
Definition has (flags : Z) (f : UpdateFlag) : bool :=
  any_of flags (mask f).

Lemma any_of_lor (flags a b : Z) :
  any_of flags (a .| b) = any_of flags a || any_of flags b.
Proof.
  unfold any_of. rewrite Z.land_lor_distr_r.
  destruct (Z.eqb_spec (Z.land flags a .| Z.land flags b) 0) as [H|H].
  - apply Z.lor_eq_0_iff in H. destruct H as [-> ->]. reflexivity.
  - destruct (Z.eqb_spec (Z.land flags a) 0) as [Ha|Ha];
      destruct (Z.eqb_spec (Z.land flags b) 0) as [Hb|Hb];
      try reflexivity.
    rewrite Ha, Hb in H. contradiction.
Qed.

Lemma has_testbit (flags : Z) (f : UpdateFlag) :
  has flags f = Z.testbit flags (Z.of_nat (bit f)).
Proof.
  unfold has, any_of, mask. rewrite Z.shiftl_1_l.
  destruct (Z.testbit flags (Z.of_nat (bit f))) eqn:Hb.
  - destruct (Z.eqb_spec (Z.land flags (2 ^ Z.of_nat (bit f))) 0)
      as [H|H]; [|reflexivity].
    exfalso.
    assert (Z.testbit (Z.land flags (2 ^ Z.of_nat (bit f)))
              (Z.of_nat (bit f)) = true) as Ht.
    { rewrite Z.land_spec, Hb, Z.pow2_bits_true by lia. reflexivity. }
    rewrite H, Z.bits_0 in Ht. discriminate.
  - assert (Z.land flags (2 ^ Z.of_nat (bit f)) = 0)%Z as ->;
      [|reflexivity].
    apply Z.bits_inj'. intros n Hn.
    rewrite Z.land_spec, Z.bits_0, Z.pow2_bits_eqb by lia.
    destruct (Z.eqb_spec (Z.of_nat (bit f)) n) as [<-|_].
    + rewrite Hb. reflexivity.
    + apply andb_false_r.
Qed.

Lemma has_lor (x y : Z) (f : UpdateFlag) :
  has (x .| y) f = has x f || has y f.
Proof. rewrite !has_testbit. apply Z.lor_spec. Qed.

Lemma has_mask (f g : UpdateFlag) :
  has (mask g) f = bool_decide (f = g).
Proof using bit_injective.
  rewrite has_testbit. unfold mask.
  rewrite Z.shiftl_1_l, Z.pow2_bits_eqb by lia.
  destruct (decide (f = g)) as [->|Hne].
  - rewrite Z.eqb_refl, bool_decide_eq_true_2; reflexivity.
  - rewrite bool_decide_eq_false_2 by assumption.
    apply Z.eqb_neq. intros H. apply Hne. symmetry.
    apply bit_injective. lia.
Qed.

Lemma has_0 (f : UpdateFlag) : has 0 f = false.
Proof. reflexivity. Qed.

(** The request together with some of the four flags the loop adds. *)
Definition with_added (in_ : Z) (b c v k : bool) : Z :=
  in_ .| (if b then mask update_boundary_forms else 0)
      .| (if c then mask update_contravariant_transformation else 0)
      .| (if v then mask update_covariant_transformation else 0)
      .| (if k then mask update_volume_elements else 0).

Lemma has_with_added (in_ : Z) (b c v k : bool) (f : UpdateFlag) :
  has (with_added in_ b c v k) f =
  has in_ f ||
  (b && bool_decide (f = update_boundary_forms)) ||
  (c && bool_decide (f = update_contravariant_transformation)) ||
  (v && bool_decide (f = update_covariant_transformation)) ||
  (k && bool_decide (f = update_volume_elements)).
Proof using bit_injective.
  unfold with_added. rewrite !has_lor.
  destruct b, c, v, k; rewrite ?has_mask, ?has_0; reflexivity.
Qed.

(** Equations between disjunctions of bits. *)
Ltac solve_lor :=
  repeat match goal with
         | |- context [Z.testbit ?a ?n] => destruct (Z.testbit a n)
         end;
  reflexivity.

Lemma with_added_boundary_forms in_ b c v k :
  with_added in_ b c v k .| mask update_boundary_forms =
  with_added in_ true c v k.
Proof.
  unfold with_added. apply Z.bits_inj'. intros n _.
  rewrite !Z.lor_spec. destruct b; rewrite ?Z.bits_0; solve_lor.
Qed.

Lemma with_added_contravariant in_ b c v k :
  with_added in_ b c v k .| mask update_contravariant_transformation =
  with_added in_ b true v k.
Proof.
  unfold with_added. apply Z.bits_inj'. intros n _.
  rewrite !Z.lor_spec. destruct c; rewrite ?Z.bits_0; solve_lor.
Qed.

Lemma with_added_covariant in_ b c v k :
  with_added in_ b c v k .| mask update_covariant_transformation =
  with_added in_ b c true k.
Proof.
  unfold with_added. apply Z.bits_inj'. intros n _.
  rewrite !Z.lor_spec. destruct v; rewrite ?Z.bits_0; solve_lor.
Qed.

Lemma with_added_volume_elements in_ b c v k :
  with_added in_ b c v k .| mask update_volume_elements =
  with_added in_ b c v true.
Proof.
  unfold with_added. apply Z.bits_inj'. intros n _.
  rewrite !Z.lor_spec. destruct k; rewrite ?Z.bits_0; solve_lor.
Qed.

Lemma with_added_none in_ : with_added in_ false false false false = in_.
Proof. unfold with_added. rewrite !Z.lor_0_r. reflexivity. Qed.

Lemma if_boundary_forms (t : bool) in_ b c v k :
  (if t then with_added in_ true c v k else with_added in_ b c v k) =
  with_added in_ (b || t) c v k.
Proof. destruct t, b; reflexivity. Qed.

Lemma if_contravariant (t : bool) in_ b c v k :
  (if t then with_added in_ b true v k else with_added in_ b c v k) =
  with_added in_ b (c || t) v k.
Proof. destruct t, c; reflexivity. Qed.

Lemma if_covariant (t : bool) in_ b c v k :
  (if t then with_added in_ b c true k else with_added in_ b c v k) =
  with_added in_ b c (v || t) k.
Proof. destruct t, v; reflexivity. Qed.

Lemma if_volume_elements (t : bool) in_ b c v k :
  (if t then with_added in_ b c v true else with_added in_ b c v k) =
  with_added in_ b c v (k || t).
Proof. destruct t, k; reflexivity. Qed.

(** What one pass makes of the four added flags, when [h] tells the
    flags of the request. *)
Definition added_after_pass (h : UpdateFlag -> bool)
  (s : bool * bool * bool * bool) : bool * bool * bool * bool :=
  let '(b, c, v, k) := s in
  let b' := b || (h update_JxW_values || h update_normal_vectors) in
  let c' :=
    c || (h update_covariant_transformation || v ||
          h update_JxW_values || h update_jacobians ||
          h update_jacobian_grads || (h update_boundary_forms || b') ||
          h update_normal_vectors) in
  let v' :=
    v || (h update_inverse_jacobians ||
          h update_jacobian_pushed_forward_grads ||
          h update_jacobian_pushed_forward_2nd_derivatives ||
          h update_jacobian_pushed_forward_3rd_derivatives) in
  let k' :=
    k || (h update_contravariant_transformation || c') ||
    h update_normal_vectors in
  (b', c', v', k').

Definition with_added_flags (in_ : Z) (s : bool * bool * bool * bool) : Z :=
  let '(b, c, v, k) := s in with_added in_ b c v k.

Lemma requires_pass_with_added in_ s :
  requires_pass (with_added_flags in_ s) =
  with_added_flags in_ (added_after_pass (has in_) s).
Proof using bit_injective.
  destruct s as [[[b c] v] k].
  unfold with_added_flags, added_after_pass, requires_pass. cbv zeta.
  rewrite !any_of_lor.
  repeat match goal with
         | |- context [any_of ?x (mask ?f)] =>
             change (any_of x (mask f)) with (has x f)
         end.
  repeat (rewrite ?has_with_added, ?with_added_boundary_forms,
           ?with_added_contravariant, ?with_added_covariant,
           ?with_added_volume_elements, ?if_boundary_forms,
           ?if_contravariant, ?if_covariant, ?if_volume_elements).
  repeat match goal with
         | |- context [bool_decide (?a = ?b)] =>
             let r := eval vm_compute in (bool_decide (a = b)) in
             change (bool_decide (a = b)) with r
         end.
  rewrite ?andb_false_r, ?andb_true_r, ?orb_false_r.
  reflexivity.
Qed.

Lemma iter_requires_pass (n : nat) in_ s :
  Nat.iter n requires_pass (with_added_flags in_ s) =
  with_added_flags in_ (Nat.iter n (added_after_pass (has in_)) s).
Proof using bit_injective.
  induction n as [|n IH]; [reflexivity|].
  rewrite Nat.iter_succ, IH. apply requires_pass_with_added.
Qed.

(** The flags the loop has added when it ends. *)
Definition added_flags (h : UpdateFlag -> bool)
  : bool * bool * bool * bool :=
  let b := h update_JxW_values || h update_normal_vectors in
  let v :=
    h update_inverse_jacobians ||
    h update_jacobian_pushed_forward_grads ||
    h update_jacobian_pushed_forward_2nd_derivatives ||
    h update_jacobian_pushed_forward_3rd_derivatives in
  let c :=
    h update_covariant_transformation || v || b ||
    h update_jacobians || h update_jacobian_grads ||
    h update_boundary_forms in
  let k := h update_contravariant_transformation || c in
  (b, c, v, k).

(** Equations between the added flags, by cases on the flags of the
    request. *)
Ltac by_cases_on_flags h :=
  cbv beta iota zeta delta [Nat.iter nat_rect added_after_pass added_flags];
  generalize (h update_inverse_jacobians ||
              h update_jacobian_pushed_forward_grads ||
              h update_jacobian_pushed_forward_2nd_derivatives ||
              h update_jacobian_pushed_forward_3rd_derivatives);
  intro;
  repeat match goal with
         | |- context [h ?f] =>
             let b := fresh "b" in
             generalize (h f); intro b
         end;
  repeat match goal with
         | |- (_, _) = (_, _) => f_equal
         end;
  btauto.

Lemma two_passes_add (h : UpdateFlag -> bool) :
  Nat.iter 2 (added_after_pass h) (false, false, false, false) =
  added_flags h.
Proof. by_cases_on_flags h. Qed.

Lemma added_flags_fixed (h : UpdateFlag -> bool) :
  added_after_pass h (added_flags h) = added_flags h.
Proof. by_cases_on_flags h. Qed.

Lemma iter_added_flags_fixed (n : nat) (h : UpdateFlag -> bool) :
  Nat.iter n (added_after_pass h) (added_flags h) = added_flags h.
Proof.
  induction n as [|n IH]; [reflexivity|].
  rewrite Nat.iter_succ, IH. apply added_flags_fixed.
Qed.

Lemma iter_requires_pass_from_two (n : nat) in_ :
  (2 <= n)%nat ->
  Nat.iter n requires_pass in_ =
  with_added_flags in_ (added_flags (has in_)).
Proof using bit_injective.
  intros Hn.
  replace n with ((n - 2) + 2)%nat by lia.
  rewrite <- (with_added_none in_) at 1.
  change (with_added in_ false false false false)
    with (with_added_flags in_ (false, false, false, false)).
  rewrite iter_requires_pass, Nat.iter_add, two_passes_add.
  rewrite iter_added_flags_fixed. reflexivity.
Qed.

(** The flags of the result: those of the request and, of the four flags
    the loop can add, those the rules reach. *)
Definition required (h : UpdateFlag -> bool) (f : UpdateFlag) : bool :=
  let normals := h update_JxW_values || h update_normal_vectors in
  let pushed_forward :=
    h update_inverse_jacobians ||
    h update_jacobian_pushed_forward_grads ||
    h update_jacobian_pushed_forward_2nd_derivatives ||
    h update_jacobian_pushed_forward_3rd_derivatives in
  let jacobian :=
    h update_covariant_transformation || pushed_forward || normals ||
    h update_jacobians || h update_jacobian_grads ||
    h update_boundary_forms in
  h f ||
  match f with
  | update_boundary_forms => normals
  | update_covariant_transformation => pushed_forward
  | update_contravariant_transformation => jacobian
  | update_volume_elements =>
      h update_contravariant_transformation || jacobian
  | _ => false
  end.

Lemma has_requires_update_flags in_ f :
  has (requires_update_flags in_) f = required (has in_) f.
Proof using bit_injective.
  unfold requires_update_flags.
  rewrite iter_requires_pass_from_two by lia.
  unfold added_flags, with_added_flags. cbv zeta.
  rewrite has_with_added. unfold required. cbv zeta.
  destruct f;
    repeat match goal with
           | |- context [bool_decide (?a = ?b)] =>
               let r := eval vm_compute in (bool_decide (a = b)) in
               change (bool_decide (a = b)) with r
           end;
    rewrite ?andb_false_r, ?andb_true_r, ?orb_false_r; reflexivity.
Qed.

(** [requires_update_flags] returns the request together with the flags
    the five rules reach from it: the boundary forms for [JxW] values or
    normal vectors; the covariant transformation for inverse Jacobians
    and pushed-forward derivatives; the contravariant transformation for
    any of those, and for Jacobians, their gradients and boundary forms;
    the volume elements whenever the contravariant transformation is in
    the result.  Every other bit of the word is left as it was. *)
Theorem requires_update_flags_spec (in_ : Z) :
  (forall f, has (requires_update_flags in_) f = required (has in_) f) /\
  (forall n, (forall f, Z.of_nat (bit f) <> n) ->
             Z.testbit (requires_update_flags in_) n = Z.testbit in_ n).
Proof using bit_injective.
  split; [apply has_requires_update_flags|].
  intros n Hn. unfold requires_update_flags.
  rewrite iter_requires_pass_from_two by lia.
  destruct (added_flags (has in_)) as [[[b c] v] k].
  unfold with_added_flags, with_added.
  assert (forall t f, Z.testbit (if t : bool then mask f else 0) n = false)
    as Hoff.
  { intros [] f; [|apply Z.bits_0].
    unfold mask. rewrite Z.shiftl_1_l.
    destruct (Z.neg_nonneg_cases n) as [Hneg|Hpos].
    - apply Z.testbit_neg_r. exact Hneg.
    - rewrite Z.pow2_bits_eqb by lia. apply Z.eqb_neq. apply Hn. }
  rewrite !Z.lor_spec, !Hoff, !orb_false_r. reflexivity.
Qed.

(** The result is closed under the rules: one more pass of the loop
    changes nothing, asking again for what was returned returns it, and
    the loop has reached this result after its second pass. *)
Theorem requires_update_flags_converged (in_ : Z) :
  requires_pass (requires_update_flags in_) = requires_update_flags in_ /\
  requires_update_flags (requires_update_flags in_) =
    requires_update_flags in_ /\
  (forall n, (2 <= n)%nat ->
             Nat.iter n requires_pass in_ = requires_update_flags in_).
Proof using bit_injective.
  assert (forall n, (2 <= n)%nat ->
                    Nat.iter n requires_pass in_ = requires_update_flags in_)
    as Hiter.
  { intros n Hn. unfold requires_update_flags.
    rewrite (iter_requires_pass_from_two n) by exact Hn.
    rewrite (iter_requires_pass_from_two 5) by lia. reflexivity. }
  assert (requires_pass (requires_update_flags in_) =
          requires_update_flags in_) as Hfix.
  { transitivity (Nat.iter 6 requires_pass in_); [|apply Hiter; lia].
    unfold requires_update_flags. symmetry.
    exact (Nat.iter_succ 5 requires_pass in_). }
  split; [exact Hfix|]. split; [|exact Hiter].
  generalize (requires_update_flags in_) Hfix. intros x Hx.
  unfold requires_update_flags.
  assert (forall n, Nat.iter n requires_pass x = x) as Hall.
  { induction n as [|n IH]; [reflexivity|].
    rewrite Nat.iter_succ, IH. exact Hx. }
  apply Hall.
Qed.

End Flags.
(** *** The closure of a request for inverse Jacobians *)

(** An assignment of bits to the flags; any one-to-one assignment will
    do. *)
Definition flag_bits (f : UpdateFlag) : nat :=
  match f with
  | update_boundary_forms => 4
  | update_quadrature_points => 5
  | update_JxW_values => 6
  | update_normal_vectors => 7
  | update_jacobians => 8
  | update_jacobian_grads => 9
  | update_inverse_jacobians => 10
  | update_covariant_transformation => 11
  | update_contravariant_transformation => 12
  | update_volume_elements => 15
  | update_jacobian_pushed_forward_grads => 20
  | update_jacobian_2nd_derivatives => 21
  | update_jacobian_pushed_forward_2nd_derivatives => 22
  | update_jacobian_3rd_derivatives => 23
  | update_jacobian_pushed_forward_3rd_derivatives => 24
  end.

Lemma flag_bits_injective (f g : UpdateFlag) :
  flag_bits f = flag_bits g -> f = g.
Proof. destruct f, g; intros H; (reflexivity || discriminate H). Qed.

(** A request for the inverse Jacobians alone comes back with the
    covariant and contravariant transformations and the volume elements;
    the first pass adds the covariant transformation only. *)
Lemma requires_update_flags_spec_witness :
  let in_ := mask flag_bits update_inverse_jacobians in
  has flag_bits (requires_update_flags flag_bits in_)
    update_volume_elements = true /\
  has flag_bits (requires_update_flags flag_bits in_)
    update_JxW_values = false /\
  requires_update_flags flag_bits in_ = 39936%Z /\
  requires_pass flag_bits in_ = 3072%Z.
Proof.
  cbv zeta.
  destruct (requires_update_flags_spec flag_bits flag_bits_injective
              (mask flag_bits update_inverse_jacobians)) as [H _].
  rewrite !H. repeat split; vm_compute; reflexivity.
Defined.

Lemma requires_update_flags_converged_witness :
  requires_pass flag_bits (requires_update_flags flag_bits 1024) =
    requires_update_flags flag_bits 1024 /\
  Nat.iter 2 (requires_pass flag_bits) 1024%Z =
    requires_update_flags flag_bits 1024.
Proof.
  destruct (requires_update_flags_converged flag_bits flag_bits_injective
              1024) as (H1 & _ & H2).
  split; [exact H1|]. apply H2. exact (le_n 2).
Defined.

End MappingQGenericData.

(** ** [MatrixFree]: cell batches and the constraint pool *)

Module MatrixFree.

(** A cell of the mesh: its level and its index in the level. *)
Abbreviation CellHandle := (nat * nat)%type (only parsing).

(** [TaskInfo::TasksParallelScheme]. *)
Inductive TasksParallelScheme : Type :=
| none
| partition_partition
| partition_color
| color.

Definition is_none (s : TasksParallelScheme) : bool :=
  match s with none => true | _ => false end.

Section CellBatches.
(** [task_info.vectorization_length], the number of SIMD lanes. *)
Variable n_lanes : nat.

(** [(irregular_cells[i] > 0) ? irregular_cells[i] : n_lanes]: the number
    of cells in a batch. *)
Definition lanes_of (irregular : nat) : nat :=
  if (0 <? irregular)%nat then irregular else n_lanes.

(** [cell_level_index_old[renumbering[k]]]. *)
Definition renumbered_cell (old : list CellHandle) (renumbering : list nat)
  (k : nat) : outcome CellHandle :=
  r ← at_index renumbering k; at_index old r.

(** One pass of the loop over the batches (lines 1248-1261): the
    [n_comp] cells of the batch, then the last of them once more for
    every lane that is left. *)
Definition cell_batch (old : list CellHandle) (renumbering : list nat)
  (position_cell n_comp : nat) : outcome (list CellHandle) :=
  active ← mapM (fun j => renumbered_cell old renumbering (position_cell + j))
                (seq 0 n_comp);
  padding ←
    (if (n_comp <? n_lanes)%nat then
       last_valid ← renumbered_cell old renumbering
                      (position_cell + n_comp - 1);
       Returned (replicate (n_lanes - n_comp) last_valid)
     else Returned []);
  Returned (active ++ padding).

(** The loop over the batches (lines 1246-1262), [remaining] passes from
    batch [i] on; the result is the new [cell_level_index] with the final
    [position_cell]. *)
Fixpoint batch_loop (old : list CellHandle) (renumbering irregular_cells : list nat)
  (remaining i position_cell : nat) (cell_level_index : list CellHandle)
  : outcome (list CellHandle * nat) :=
  match remaining with
  | O => Returned (cell_level_index, position_cell)
  | S remaining' =>
      irregular ← at_index irregular_cells i;
      let n_comp := lanes_of irregular in
      batch ← cell_batch old renumbering position_cell n_comp;
      batch_loop old renumbering irregular_cells remaining' (S i)
        (position_cell + n_comp) (cell_level_index ++ batch)
  end.

(** The check of the [#ifdef DEBUG] block (lines 1231-1240): sorted, the
    renumbering is the identity. *)
Definition sorts_to_identity (renumbering : list nat) : bool :=
  bool_decide (merge_sort le renumbering = seq 0 (length renumbering)).

(** "Finally perform the renumbering" (lines 1227-1267), with
    [n_batches = task_info.cell_partition_data.back()]. *)
Definition renumber_cells (debug : bool) (n_batches n_active_cells n_ghost_cells : nat)
  (cell_level_index_old : list CellHandle)
  (renumbering irregular_cells : list nat) : outcome (list CellHandle) :=
  Assert debug (length renumbering =? n_active_cells + n_ghost_cells)%nat
    ExcDimensionMismatch ;;
  Assert debug (sorts_to_identity renumbering) ExcInternalError ;;
  '(cell_level_index, position_cell) ←
    batch_loop cell_level_index_old renumbering irregular_cells
      n_batches 0 0 [];
  Assert debug (position_cell =? n_active_cells + n_ghost_cells)%nat
    ExcDimensionMismatch ;;
  Assert debug (length cell_level_index =? n_batches * n_lanes)%nat
    ExcDimensionMismatch ;;
  Returned cell_level_index.

(** **** Properties of the batch construction *)

(** The cell at position [k] of the renumbered sequence. *)
Definition cell_of (old : list CellHandle) (renumbering : list nat) (k : nat)
  : option CellHandle :=
  r ← renumbering !! k; old !! r.

(** The number of cells in each of the first [n_batches] batches, and the
    value of [position_cell] when batch [i] starts. *)
Definition lane_counts (irregular_cells : list nat) (n_batches : nat)
  : list nat :=
  map lanes_of (take n_batches irregular_cells).

Definition position_of (irregular_cells : list nat) (i : nat) : nat :=
  sum_list (lane_counts irregular_cells i).


(** What one batch holds, started at [position]: [c] cells of the
    renumbered sequence, then its last cell in the lanes that are left. *)
Definition batch_spec (old : list CellHandle) (renumbering : list nat)
  (position c : nat) (batch : list CellHandle) : Prop :=
  length batch = (c + (n_lanes - c))%nat /\
  (forall j, (j < c)%nat ->
             is_Some (batch !! j) /\
             batch !! j = cell_of old renumbering (position + j)) /\
  (forall j, (c <= j < n_lanes)%nat ->
             is_Some (batch !! j) /\
             batch !! j = cell_of old renumbering (position + c - 1)).

Fixpoint batches_spec (old : list CellHandle) (renumbering : list nat)
  (position : nat) (counts : list nat) (batches : list (list CellHandle))
  : Prop :=
  match counts, batches with
  | [], [] => True
  | c :: counts', b :: batches' =>
      batch_spec old renumbering position c b /\
      batches_spec old renumbering (position + c) counts' batches'
  | _, _ => False
  end.

Lemma outcome_bind_returned {A B : Type} (o : outcome A)
  (k : A -> outcome B) b :
  o ≫= k = Returned b -> exists a, o = Returned a /\ k a = Returned b.
Proof. destruct o; cbn; [eauto|discriminate..]. Qed.

Lemma at_index_returned {A : Type} (v : list A) i a :
  at_index v i = Returned a <-> v !! i = Some a.
Proof.
  unfold at_index. destruct (v !! i); split; intros E;
    try discriminate; congruence.
Qed.

Lemma renumbered_cell_returned old renumbering k c :
  renumbered_cell old renumbering k = Returned c <->
  cell_of old renumbering k = Some c.
Proof.
  unfold renumbered_cell, cell_of. split.
  - intros E. apply outcome_bind_returned in E.
    destruct E as (r & Er & Ec).
    apply at_index_returned in Er, Ec. rewrite Er. exact Ec.
  - intros E. destruct (renumbering !! k) as [r|] eqn:Er; [|discriminate].
    cbn in E. apply at_index_returned in Er. rewrite Er. cbn.
    apply at_index_returned. exact E.
Qed.

Lemma mapM_returned {A B : Type} (g : A -> outcome B) l bs :
  mapM g l = Returned bs -> Forall2 (fun a b => g a = Returned b) l bs.
Proof.
  revert bs. induction l as [|a l IH]; intros bs E; cbn in E.
  - injection E as <-. constructor.
  - apply outcome_bind_returned in E. destruct E as (b & Eb & E).
    apply outcome_bind_returned in E. destruct E as (bs' & Ebs & E).
    injection E as <-. constructor; auto.
Qed.

Lemma cell_batch_spec old renumbering position c batch :
  cell_batch old renumbering position c = Returned batch ->
  batch_spec old renumbering position c batch.
Proof.
  unfold cell_batch. intros E.
  apply outcome_bind_returned in E. destruct E as (active & Ea & E).
  apply outcome_bind_returned in E. destruct E as (padding & Ep & E).
  injection E as <-.
  apply mapM_returned in Ea.
  assert (length active = c) as Hla.
  { apply Forall2_length in Ea. rewrite length_seq in Ea. auto. }
  assert (forall j, (j < c)%nat ->
            is_Some (active !! j) /\
            active !! j = cell_of old renumbering (position + j)) as Hact.
  { intros j Hj.
    destruct (Forall2_lookup_l _ _ _ j j Ea) as (x & Hx & Hg).
    { apply lookup_seq. lia. }
    apply renumbered_cell_returned in Hg. rewrite Hx, Hg. eauto. }
  assert (length padding = (n_lanes - c)%nat /\
          forall x, x ∈ padding ->
                    cell_of old renumbering (position + c - 1) = Some x)
    as [Hlp Hpad].
  { destruct (c <? n_lanes)%nat eqn:Hc.
    - apply outcome_bind_returned in Ep. destruct Ep as (lv & El & Ep).
      injection Ep as <-. apply renumbered_cell_returned in El.
      split; [apply length_replicate|].
      intros x Hx. apply elem_of_replicate in Hx. destruct Hx as [-> _].
      exact El.
    - injection Ep as <-. apply Nat.ltb_ge in Hc. split.
      + cbn. lia.
      + intros x Hx. inversion Hx. }
  split; [rewrite length_app; lia|]. split.
  - intros j Hj. rewrite lookup_app_l by lia. auto.
  - intros j Hj. rewrite lookup_app_r by lia.
    destruct (padding !! (j - length active)) as [x|] eqn:Hx.
    + split; [eauto|]. symmetry. apply Hpad.
      apply list_elem_of_lookup. eauto.
    + apply lookup_ge_None in Hx. lia.
Qed.

Lemma batch_loop_spec old renumbering irregular_cells remaining :
  forall i position acc flat position',
  batch_loop old renumbering irregular_cells remaining i position acc =
    Returned (flat, position') ->
  let counts := map lanes_of (take remaining (drop i irregular_cells)) in
  length counts = remaining /\
  position' = (position + sum_list counts)%nat /\
  exists batches,
    flat = acc ++ concat batches /\
    batches_spec old renumbering position counts batches.
Proof.
  induction remaining as [|remaining IH];
    intros i position acc flat position' E; cbn [batch_loop] in E.
  - injection E as <- <-. cbv zeta. rewrite take_0. cbn.
    split; [reflexivity|]. split; [lia|].
    exists []. cbn. rewrite app_nil_r. auto.
  - apply outcome_bind_returned in E. destruct E as (irr & Ei & E).
    apply outcome_bind_returned in E. destruct E as (batch & Eb & E).
    apply at_index_returned in Ei.
    apply cell_batch_spec in Eb.
    apply IH in E. cbv zeta in E.
    destruct E as (Hl & Hp & batches & Hf & Hs).
    rewrite (drop_S _ _ _ Ei), firstn_cons.
    set (counts := map lanes_of (take remaining (drop (S i) irregular_cells)))
      in *.
    change (map lanes_of (irr :: take remaining (drop (S i) irregular_cells)))
      with (lanes_of irr :: counts).
    split; [cbn; lia|].
    split; [cbn; lia|].
    exists (batch :: batches). cbn [concat batches_spec].
    split; [rewrite Hf, <- app_assoc; reflexivity|]. auto.
Qed.

Lemma batches_spec_length old renumbering position counts batches :
  batches_spec old renumbering position counts batches ->
  Forall (fun c => (c <= n_lanes)%nat) counts ->
  length batches = length counts /\
  Forall (fun b => length b = n_lanes) batches.
Proof.
  revert position batches.
  induction counts as [|c counts IH]; intros position [|b batches] Hs Hc;
    cbn in Hs; try contradiction.
  - split; [reflexivity|constructor].
  - destruct Hs as [(Hl & _) Hs]. inversion Hc as [|? ? Hc1 Hc2]; subst.
    destruct (IH _ _ Hs Hc2) as [IH1 IH2].
    split; [cbn; lia|]. constructor; [lia|assumption].
Qed.

Lemma batches_spec_lookup old renumbering position counts batches i c :
  batches_spec old renumbering position counts batches ->
  counts !! i = Some c ->
  exists b, batches !! i = Some b /\
            batch_spec old renumbering
              (position + sum_list (take i counts)) c b.
Proof.
  revert position batches i.
  induction counts as [|c0 counts IH]; intros position [|b batches] i Hs Hi;
    cbn in Hs; try contradiction; try discriminate.
  destruct Hs as [Hb Hs]. destruct i as [|i].
  - injection Hi as <-. exists b. cbn. rewrite Nat.add_0_r. auto.
  - cbn in Hi. destruct (IH _ _ _ Hs Hi) as (b' & Hb' & Hs').
    exists b'. split; [exact Hb'|]. rewrite firstn_cons.
    change (sum_list (c0 :: take i counts))
      with (c0 + sum_list (take i counts))%nat.
    rewrite Nat.add_assoc. exact Hs'.
Qed.

Lemma concat_uniform_lookup {A : Type} (n : nat) (blocks : list (list A))
  i j b :
  Forall (fun b => length b = n) blocks ->
  blocks !! i = Some b ->
  (j < n)%nat ->
  concat blocks !! (i * n + j)%nat = b !! j.
Proof.
  revert i. induction blocks as [|b0 blocks IH]; intros i Hf Hi Hj;
    [discriminate|].
  inversion Hf as [|? ? Hl Hf']; subst. destruct i as [|i]; cbn [concat].
  - injection Hi as <-. cbn. rewrite lookup_app_l by lia. reflexivity.
  - cbn in Hi. rewrite lookup_app_r by (cbn; lia).
    replace (S i * length b0 + j - length b0)%nat
      with (i * length b0 + j)%nat by (cbn; lia).
    apply IH; assumption.
Qed.

Lemma length_concat_uniform {A : Type} (n : nat) (blocks : list (list A)) :
  Forall (fun b => length b = n) blocks ->
  length (concat blocks) = (length blocks * n)%nat.
Proof.
  induction 1 as [|b blocks Hb _ IH]; [reflexivity|].
  cbn. rewrite length_app, IH, Hb. reflexivity.
Qed.






Lemma renumber_cells_returned debug n_batches n_active_cells n_ghost_cells
  old renumbering irregular_cells flat :
  renumber_cells debug n_batches n_active_cells n_ghost_cells old renumbering
    irregular_cells = Returned flat ->
  length (lane_counts irregular_cells n_batches) = n_batches /\
  exists batches,
    flat = concat batches /\
    batches_spec old renumbering 0 (lane_counts irregular_cells n_batches)
      batches.
Proof.
  unfold renumber_cells. intros E.
  apply outcome_bind_returned in E. destruct E as (_ & _ & E).
  apply outcome_bind_returned in E. destruct E as (_ & _ & E).
  apply outcome_bind_returned in E. destruct E as ([flat' pos] & Eb & E).
  apply outcome_bind_returned in E. destruct E as (_ & _ & E).
  apply outcome_bind_returned in E. destruct E as (_ & _ & E).
  injection E as <-.
  apply batch_loop_spec in Eb. cbv zeta in Eb. rewrite drop_0 in Eb.
  destruct Eb as (Hl & _ & batches & Hf & Hs).
  split; [exact Hl|]. exists batches. auto.
Qed.

Lemma take_lane_counts irregular_cells n_batches i :
  (i <= n_batches)%nat ->
  take i (lane_counts irregular_cells n_batches) =
  lane_counts irregular_cells i.
Proof.
  intros Hi. unfold lane_counts.
  rewrite <- fmap_take, take_take. f_equal. f_equal. lia.
Qed.

Lemma lanes_of_le irregular_cells n_batches :
  Forall (fun irr => (irr <= n_lanes)%nat) (take n_batches irregular_cells) ->
  Forall (fun c => (c <= n_lanes)%nat) (lane_counts irregular_cells n_batches).
Proof.
  intros Hirr. unfold lane_counts. apply Forall_fmap.
  eapply Forall_impl; [exact Hirr|]. intros irr Hi. cbn in Hi |- *.
  unfold lanes_of. destruct (0 <? irr)%nat; lia.
Qed.


(** **** When the batch construction returns *)

Lemma mapM_returns {A B : Type} (g : A -> outcome B) l :
  Forall (fun a => is_returned (g a) = true) l ->
  exists bs, mapM g l = Returned bs.
Proof.
  induction 1 as [|a l Ha _ [bs IH]]; [exists []; reflexivity|].
  destruct (g a) as [b| | |] eqn:Eb; try discriminate.
  exists (b :: bs). cbn. rewrite Eb. cbn. rewrite IH. reflexivity.
Qed.

Lemma renumbered_cell_returns old renumbering k :
  is_Some (cell_of old renumbering k) ->
  is_returned (renumbered_cell old renumbering k) = true.
Proof.
  intros [c Hc]. apply renumbered_cell_returned in Hc. rewrite Hc.
  reflexivity.
Qed.

Lemma cell_batch_returns old renumbering position c :
  (1 <= c)%nat ->
  (forall k, (position <= k < position + c)%nat ->
             is_Some (cell_of old renumbering k)) ->
  exists batch, cell_batch old renumbering position c = Returned batch.
Proof.
  intros Hc Hin. unfold cell_batch.
  destruct (mapM_returns
              (fun j => renumbered_cell old renumbering (position + j))
              (seq 0 c)) as [active Ea].
  { apply Forall_forall. intros j Hj. apply elem_of_seq in Hj.
    apply renumbered_cell_returns, Hin. lia. }
  rewrite Ea. cbn [mbind outcome_bind bind].
  destruct (c <? n_lanes)%nat; [|eexists; reflexivity].
  destruct (renumbered_cell old renumbering (position + c - 1))
    as [last_valid| | |] eqn:El.
  - eexists. reflexivity.
  - pose proof (renumbered_cell_returns old renumbering (position + c - 1))
      as Hr. rewrite El in Hr. discriminate Hr. apply Hin. lia.
  - pose proof (renumbered_cell_returns old renumbering (position + c - 1))
      as Hr. rewrite El in Hr. discriminate Hr. apply Hin. lia.
  - pose proof (renumbered_cell_returns old renumbering (position + c - 1))
      as Hr. rewrite El in Hr. discriminate Hr. apply Hin. lia.
Qed.

Lemma batch_loop_returns old renumbering irregular_cells remaining :
  forall i position acc,
  (0 < n_lanes)%nat ->
  (i + remaining <= length irregular_cells)%nat ->
  (forall k,
      (k < position +
           sum_list (map lanes_of (take remaining (drop i irregular_cells))))%nat ->
      is_Some (cell_of old renumbering k)) ->
  exists flat position',
    batch_loop old renumbering irregular_cells remaining i position acc =
      Returned (flat, position').
Proof.
  induction remaining as [|remaining IH]; intros i position acc Hn Hi Hin.
  - eexists _, _. reflexivity.
  - cbn [batch_loop].
    destruct (lookup_lt_is_Some_2 irregular_cells i) as [irr Hirr]; [lia|].
    rewrite (drop_S _ _ _ Hirr), firstn_cons in Hin.
    change (sum_list (map lanes_of
                        (irr :: take remaining (drop (S i) irregular_cells))))
      with (lanes_of irr +
            sum_list (map lanes_of
                        (take remaining (drop (S i) irregular_cells))))%nat
      in Hin.
    apply at_index_returned in Hirr. rewrite Hirr.
    cbn [mbind outcome_bind bind].
    assert (1 <= lanes_of irr)%nat as Hl.
    { unfold lanes_of. destruct (0 <? irr)%nat eqn:E;
        [apply Nat.ltb_lt in E|]; lia. }
    destruct (cell_batch_returns old renumbering position (lanes_of irr) Hl)
      as [batch Eb].
    { intros k Hk. apply Hin. lia. }
    rewrite Eb. cbn [mbind outcome_bind bind].
    apply IH; [exact Hn|lia|].
    intros k Hk. apply Hin. lia.
Qed.

Lemma Sorted_seq (start n : nat) : Sorted le (seq start n).
Proof.
  revert start. induction n as [|n IH]; intros start; cbn; [constructor|].
  constructor; [apply IH|].
  destruct n; cbn; constructor. lia.
Qed.

Lemma sorts_to_identity_permutation (renumbering : list nat) :
  renumbering ≡ₚ seq 0 (length renumbering) ->
  sorts_to_identity renumbering = true.
Proof.
  intros Hperm. unfold sorts_to_identity. apply bool_decide_eq_true_2.
  apply (Sorted_unique le).
  - apply Sorted_merge_sort. apply _.
  - apply Sorted_seq.
  - rewrite merge_sort_Permutation. exact Hperm.
Qed.

(** The batch construction returns, in either build, when the
    partitioning is consistent: the renumbering is a permutation of the
    cell indices, [irregular_cells] has an entry of at most [n_lanes] for
    every batch, and the batches hold as many cells as there are. *)
Lemma renumber_cells_returns debug n_batches n_active_cells n_ghost_cells
  old renumbering irregular_cells :
  (0 < n_lanes)%nat ->
  (n_batches <= length irregular_cells)%nat ->
  Forall (fun irr => (irr <= n_lanes)%nat) (take n_batches irregular_cells) ->
  length old = (n_active_cells + n_ghost_cells)%nat ->
  renumbering ≡ₚ seq 0 (length old) ->
  sum_list (lane_counts irregular_cells n_batches) =
    (n_active_cells + n_ghost_cells)%nat ->
  exists flat,
    renumber_cells debug n_batches n_active_cells n_ghost_cells old
      renumbering irregular_cells = Returned flat.
Proof.
  intros Hn Hb Hirr Hold Hperm Hsum.
  assert (length renumbering = (n_active_cells + n_ghost_cells)%nat) as Hlen.
  { rewrite Hperm, length_seq. exact Hold. }
  assert (forall k, (k < n_active_cells + n_ghost_cells)%nat ->
                    is_Some (cell_of old renumbering k)) as Hin.
  { intros k Hk. unfold cell_of.
    destruct (lookup_lt_is_Some_2 renumbering k) as [r Hr]; [lia|].
    rewrite Hr. cbn. apply lookup_lt_is_Some_2.
    assert (r ∈ seq 0 (length old)) as Hr'.
    { rewrite <- Hperm. apply list_elem_of_lookup. eauto. }
    apply elem_of_seq in Hr'. lia. }
  destruct (batch_loop_returns old renumbering irregular_cells n_batches
              0 0 [] Hn) as (flat & position' & E).
  { lia. }
  { rewrite drop_0. cbn [Nat.add]. fold (lane_counts irregular_cells n_batches).
    rewrite Hsum. exact Hin. }
  pose proof E as Hspec. apply batch_loop_spec in Hspec. cbv zeta in Hspec.
  rewrite drop_0 in Hspec.
  fold (lane_counts irregular_cells n_batches) in Hspec.
  destruct Hspec as (Hl & Hp & batches & Hf & Hs).
  destruct (batches_spec_length _ _ _ _ _ Hs (lanes_of_le _ _ Hirr))
    as [Hlb Hu].
  exists flat. unfold renumber_cells, Assert.
  rewrite Hlen, Nat.eqb_refl, andb_false_r. cbn [mbind outcome_bind bind].
  rewrite sorts_to_identity_permutation, andb_false_r
    by (rewrite Hlen, <- Hold; exact Hperm).
  cbn [mbind outcome_bind bind]. rewrite E. cbn [mbind outcome_bind bind].
  assert ((position' =? n_active_cells + n_ghost_cells)%nat = true) as ->
    by (apply Nat.eqb_eq; lia).
  assert ((length flat =? n_batches * n_lanes)%nat = true) as ->.
  { apply Nat.eqb_eq. rewrite Hf. cbn [app].
    rewrite (length_concat_uniform n_lanes) by exact Hu. lia. }
  rewrite andb_false_r. reflexivity.
Qed.

(** C5 (amended).  After the batch construction the flat array has
    (number of batches) * [n_lanes] entries.  Entry [i * n_lanes + j]
    is, for an active lane [j] of batch [i], the cell at position
    [position_of i + j] of the renumbered sequence, where [position_of i]
    is the number of cells in the batches before [i]; for a padding lane
    it is the cell of the last active lane of the batch.  Where all
    batches before [i] are full, [position_of i] is [i * n_lanes].  The
    construction returns whenever the partitioning is consistent. *)
Theorem batch_layout debug n_batches n_active_cells n_ghost_cells
  old renumbering irregular_cells :
  Forall (fun irr => (irr <= n_lanes)%nat) (take n_batches irregular_cells) ->
  ((0 < n_lanes)%nat ->
   (n_batches <= length irregular_cells)%nat ->
   length old = (n_active_cells + n_ghost_cells)%nat ->
   renumbering ≡ₚ seq 0 (length old) ->
   sum_list (lane_counts irregular_cells n_batches) =
     (n_active_cells + n_ghost_cells)%nat ->
   exists flat,
     renumber_cells debug n_batches n_active_cells n_ghost_cells old
       renumbering irregular_cells = Returned flat) /\
  (forall flat,
     renumber_cells debug n_batches n_active_cells n_ghost_cells old
       renumbering irregular_cells = Returned flat ->
     length flat = (n_batches * n_lanes)%nat /\
     (forall i j, (i < n_batches)%nat -> (j < n_lanes)%nat ->
        exists irregular,
          irregular_cells !! i = Some irregular /\
          is_Some (flat !! (i * n_lanes + j)%nat) /\
          flat !! (i * n_lanes + j)%nat =
            cell_of old renumbering
              (if (j <? lanes_of irregular)%nat
               then position_of irregular_cells i + j
               else position_of irregular_cells i + lanes_of irregular - 1)) /\
     (forall i, (i <= n_batches)%nat ->
        Forall (fun c => c = n_lanes) (lane_counts irregular_cells i) ->
        position_of irregular_cells i = (i * n_lanes)%nat)).
Proof.
  intros Hirr. split.
  { intros Hn Hb Hold Hperm Hsum.
    apply renumber_cells_returns; assumption. }
  intros flat E.
  destruct (renumber_cells_returned _ _ _ _ _ _ _ _ E)
    as (Hl & batches & -> & Hs).
  pose proof (lanes_of_le _ _ Hirr) as Hc.
  destruct (batches_spec_length _ _ _ _ _ Hs Hc) as [Hlb Hu].
  split; [|split].
  - rewrite (length_concat_uniform n_lanes) by exact Hu. lia.
  - intros i j Hi Hj.
    destruct (lookup_lt_is_Some_2 (lane_counts irregular_cells n_batches) i)
      as [c Hci]; [lia|].
    assert (exists irregular, irregular_cells !! i = Some irregular /\
                              c = lanes_of irregular) as (irr & Hii & ->).
    { unfold lane_counts in Hci. rewrite list_lookup_fmap in Hci.
      destruct (take n_batches irregular_cells !! i) as [irr|] eqn:Ht;
        [|discriminate].
      injection Hci as <-. rewrite lookup_take_lt in Ht by lia. eauto. }
    exists irr. split; [exact Hii|].
    destruct (batches_spec_lookup _ _ _ _ _ _ _ Hs Hci)
      as (b & Hb & (_ & Hact & Hpad)).
    rewrite take_lane_counts in Hact, Hpad by lia.
    rewrite (concat_uniform_lookup n_lanes batches i j b Hu Hb Hj).
    fold (position_of irregular_cells i) in Hact, Hpad.
    destruct (j <? lanes_of irr)%nat eqn:Hlt.
    + apply Nat.ltb_lt in Hlt. apply (Hact j Hlt).
    + apply Nat.ltb_ge in Hlt. apply (Hpad j). lia.
  - intros i Hi Hfull. unfold position_of.
    rewrite <- (list_fmap_id (lane_counts irregular_cells i)).
    rewrite (sum_list_fmap_same n_lanes _ id) by exact Hfull.
    assert (n_batches <= length irregular_cells)%nat.
    { unfold lane_counts in Hl. rewrite length_map, length_take in Hl. lia. }
    unfold lane_counts. rewrite length_map, length_take, Nat.min_l by lia.
    reflexivity.
Qed.


End CellBatches.

(** *** [compute_dof_info]: from the DoF indices to the cell batches *)

(** What a partitioning leaves behind: the renumbering of the cells, the
    number of cells of each batch that is not full, and
    [task_info.cell_partition_data]. *)
Record Partitioning : Type := {
  renumbering : list nat;
  irregular_cells : list nat;
  cell_partition_data : list nat
}.

(** [v.back()]. *)
Definition back (v : list nat) : outcome nat :=
  match last v with
  | Some x => Returned x
  | None => Undefined
  end.

Section ComputeDoFInfo.
Variable n_lanes : nat.
Variable debug : bool.
(** [task_info.scheme], [task_info.n_active_cells] and
    [task_info.n_ghost_cells]. *)
Variable scheme : TasksParallelScheme.
Variable n_active_cells n_ghost_cells : nat.
(** [dof_handler[no]->get_fe_collection().size()], for each [no]. *)
Variable fe_collection_sizes : list nat.
Variable cell_vectorization_category : list nat.
Variable cell_vectorization_categories_strict : bool.
(** The rest of the loop over the DoF handlers (lines 742-838), for
    handler [no]. *)
Variable setup_dof_handler : nat -> outcome unit.
(** The loop over the cells that reads their DoF indices and forms the
    ghost indices (lines 840-955). *)
Variable read_dof_indices : outcome unit.
(** [task_info.create_blocks_serial], from [hp_functionality_enabled] and
    [strict_categories] (lines 976-1015). *)
Variable create_blocks_serial : bool -> bool -> Partitioning.
(** The partitioning for threads up to [task_info.make_thread_graph]
    (lines 1018-1193), from [hp_functionality_enabled]: its result and
    [n_ghost_slots]. *)
Variable make_thread_graph : bool -> outcome (Partitioning * nat).

(** The loop over the DoF handlers (lines 734-839). *)
Fixpoint dof_handler_loop (sizes : list nat) (no : nat) : outcome unit :=
  match sizes with
  | [] => Returned tt
  | size :: rest =>
      (if (1 <? size)%nat
       then Assert debug (bool_decide (cell_vectorization_category = []))
              ExcNotImplemented
       else Returned tt) ;;
      setup_dof_handler no ;;
      dof_handler_loop rest (S no)
  end.

Definition hp_functionality_enabled : bool :=
  existsb (fun size => (1 <? size)%nat) fe_collection_sizes.

(** The end of the branch for threads (lines 1195-1224): the batches of
    the ghost cells are appended to those of the partitioning. *)
Definition append_ghost_slots (partition : Partitioning) (n_ghost_slots : nat)
  : outcome Partitioning :=
  n_batches ← back (cell_partition_data partition);
  Assert debug (n_batches <=? length (irregular_cells partition))%nat
    ExcInternalError ;;
  let resized :=
    resize (n_batches + n_ghost_slots) 0%nat (irregular_cells partition) in
  irregular ←
    (if (0 <? n_ghost_slots)%nat then
       if (n_lanes =? 0)%nat then Undefined
       else
         Returned
           (<[(n_batches + n_ghost_slots - 1)%nat := n_ghost_cells mod n_lanes]>
              (foldl (fun v i => <[i := 0%nat]> v) resized
                     (seq n_batches (n_ghost_slots - 1))))
     else Returned resized);
  Assert debug
    (sum_list (lanes_of n_lanes <$> take n_batches irregular)
     =? n_active_cells)%nat ExcDimensionMismatch ;;
  Assert debug
    (sum_list (lanes_of n_lanes <$>
               take n_ghost_slots (drop n_batches irregular))
     =? n_ghost_cells)%nat ExcDimensionMismatch ;;
  Returned {| renumbering := renumbering partition;
              irregular_cells := irregular;
              cell_partition_data :=
                cell_partition_data partition
                  ++ [(n_batches + n_ghost_slots)%nat] |}.

(** Lines 957-1267 of [compute_dof_info], after the loops that read the
    DoF indices: the new [cell_level_index] and the partitioning. *)
Definition compute_dof_info (cell_level_index : list CellHandle)
  : outcome (list CellHandle * Partitioning) :=
  dof_handler_loop fe_collection_sizes 0 ;;
  read_dof_indices ;;
  Assert debug
    (is_none scheme || bool_decide (cell_vectorization_category = []))
    ExcMessage ;;
  partition ←
    (if is_none scheme then
       let strict_categories :=
         cell_vectorization_categories_strict || hp_functionality_enabled in
       Returned (create_blocks_serial hp_functionality_enabled
                   strict_categories)
     else
       '(partition, n_ghost_slots) ←
         make_thread_graph hp_functionality_enabled;
       append_ghost_slots partition n_ghost_slots);
  n_batches ← back (cell_partition_data partition);
  cells ← renumber_cells n_lanes debug n_batches n_active_cells n_ghost_cells
            cell_level_index (renumbering partition)
            (irregular_cells partition);
  Returned (cells, partition).

(** **** The batches of the ghost cells (lines 1195-1224) *)

Lemma lookup_zeroed (v : list nat) (a n k : nat) :
  foldl (fun v i => <[i := 0%nat]> v) v (seq a n) !! k =
  if bool_decide (a <= k < a + n)%nat
  then (if bool_decide (k < length v)%nat then Some 0%nat else None)
  else v !! k.
Proof.
  revert v a. induction n as [|n IH]; intros v a.
  - cbn. rewrite bool_decide_eq_false_2 by lia. reflexivity.
  - cbn [seq foldl]. rewrite IH, length_insert.
    destruct (decide (k = a)) as [->|Hne].
    + rewrite bool_decide_eq_false_2 by lia.
      rewrite bool_decide_eq_true_2 by lia.
      destruct (decide (a < length v)%nat) as [Hlt|Hge].
      * rewrite bool_decide_eq_true_2 by lia.
        apply list_lookup_insert_eq. exact Hlt.
      * rewrite bool_decide_eq_false_2 by lia.
        apply lookup_ge_None. rewrite length_insert. lia.
    + rewrite list_lookup_insert_ne by auto.
      destruct (decide (S a <= k < S a + n)%nat).
      * rewrite (bool_decide_eq_true_2 (S a <= k < S a + n)%nat) by lia.
        rewrite (bool_decide_eq_true_2 (a <= k < a + S n)%nat) by lia.
        reflexivity.
      * rewrite (bool_decide_eq_false_2 (S a <= k < S a + n)%nat) by lia.
        rewrite (bool_decide_eq_false_2 (a <= k < a + S n)%nat) by lia.
        reflexivity.
Qed.

(** The entries of [irregular_cells] for the ghost cells as lines
    1198-1207 leave them: every batch full but the last, which holds the
    remainder. *)
Definition ghost_entries (n_ghost_slots : nat) : list nat :=
  match n_ghost_slots with
  | O => []
  | S full => replicate full 0%nat ++ [n_ghost_cells mod n_lanes]
  end.

Lemma length_ghost_entries (n_ghost_slots : nat) :
  length (ghost_entries n_ghost_slots) = n_ghost_slots.
Proof.
  destruct n_ghost_slots as [|full]; [reflexivity|].
  cbn [ghost_entries]. rewrite length_app, length_replicate. cbn. lia.
Qed.

Lemma lookup_ghost_entries (n_ghost_slots k : nat) :
  (k < n_ghost_slots)%nat ->
  ghost_entries n_ghost_slots !! k =
    Some (if (S k =? n_ghost_slots)%nat
          then (n_ghost_cells mod n_lanes)%nat else 0%nat).
Proof.
  intros Hk. destruct n_ghost_slots as [|full]; [lia|].
  cbn [ghost_entries].
  destruct (S k =? S full)%nat eqn:E.
  - apply Nat.eqb_eq in E. injection E as ->.
    rewrite lookup_app_r by (rewrite length_replicate; lia).
    rewrite length_replicate, Nat.sub_diag. reflexivity.
  - apply Nat.eqb_neq in E.
    rewrite lookup_app_l by (rewrite length_replicate; lia).
    apply lookup_replicate_2. lia.
Qed.

(** The cells the ghost batches hold, as the loop of lines 1216-1219
    counts them. *)
Lemma ghost_lanes (n_ghost_slots : nat) :
  sum_list (lanes_of n_lanes <$> ghost_entries n_ghost_slots) =
  match n_ghost_slots with
  | O => 0%nat
  | S full =>
      (full * n_lanes + lanes_of n_lanes (n_ghost_cells mod n_lanes))%nat
  end.
Proof.
  destruct n_ghost_slots as [|full]; [reflexivity|].
  cbn [ghost_entries]. rewrite fmap_app, sum_list_with_app.
  change (sum_list_with id (lanes_of n_lanes <$> replicate full 0%nat))
    with (sum_list (lanes_of n_lanes <$> replicate full 0%nat)).
  rewrite (sum_list_fmap_same n_lanes)
    by (apply Forall_replicate; reflexivity).
  rewrite length_replicate. cbn. unfold id. lia.
Qed.

(** They hold [n_ghost_cells] cells exactly when there are as many
    batches as the ghost cells need. *)
Lemma ghost_lanes_count (n_ghost_slots : nat) :
  (0 < n_lanes)%nat ->
  sum_list (lanes_of n_lanes <$> ghost_entries n_ghost_slots) =
    n_ghost_cells <->
  n_ghost_slots = ((n_ghost_cells + n_lanes - 1) / n_lanes)%nat.
Proof.
  intros Hn. rewrite ghost_lanes.
  pose proof (Nat.div_mod_eq n_ghost_cells n_lanes) as Hdm.
  pose proof (Nat.mod_upper_bound n_ghost_cells n_lanes) as Hr.
  set (q := (n_ghost_cells / n_lanes)%nat) in *.
  set (r := (n_ghost_cells mod n_lanes)%nat) in *.
  unfold lanes_of.
  destruct (decide (r = 0%nat)) as [Hz|Hnz].
  - assert ((n_ghost_cells + n_lanes - 1) / n_lanes = q)%nat as ->.
    { symmetry. apply (Nat.div_unique _ _ _ (n_lanes - 1)); lia. }
    rewrite Hz. cbn [Nat.ltb Nat.leb].
    destruct n_ghost_slots as [|full]; split; intros H; nia.
  - assert ((n_ghost_cells + n_lanes - 1) / n_lanes = S q)%nat as ->.
    { symmetry. apply (Nat.div_unique _ _ _ (r - 1)); lia. }
    assert ((0 <? r)%nat = true) as -> by (apply Nat.ltb_lt; lia).
    destruct n_ghost_slots as [|full]; split; intros H; nia.
Qed.

(** Lines 1198-1207: the vector after the resize and the two
    assignments. *)
Lemma irregular_with_ghosts (irr : list nat) (n_batches n_ghost_slots : nat) :
  (0 < n_lanes)%nat ->
  (n_batches <= length irr)%nat ->
  (if (0 <? n_ghost_slots)%nat
   then if (n_lanes =? 0)%nat then Undefined
        else Returned
               (<[(n_batches + n_ghost_slots - 1)%nat :=
                    (n_ghost_cells mod n_lanes)%nat]>
                  (foldl (fun v i => <[i := 0%nat]> v)
                     (resize (n_batches + n_ghost_slots) 0%nat irr)
                     (seq n_batches (n_ghost_slots - 1))))
   else Returned (resize (n_batches + n_ghost_slots) 0%nat irr)) =
  Returned (take n_batches irr ++ ghost_entries n_ghost_slots).
Proof.
  intros Hn Hlen.
  destruct n_ghost_slots as [|full] eqn:Hslots.
  - cbn [Nat.ltb Nat.leb]. f_equal. cbn [ghost_entries].
    rewrite Nat.add_0_r, app_nil_r. apply resize_le. lia.
  - assert ((0 <? S full)%nat = true) as -> by reflexivity.
    assert ((n_lanes =? 0)%nat = false) as -> by (apply Nat.eqb_neq; lia).
    f_equal. cbn [ghost_entries].
    replace (S full - 1)%nat with full by lia.
    replace (n_batches + S full - 1)%nat with (n_batches + full)%nat by lia.
    apply list_eq. intros k.
    assert (length (resize (n_batches + S full) 0%nat irr) =
            (n_batches + S full)%nat) as Hlr by apply length_resize.
    destruct (decide (k = n_batches + full)%nat) as [->|Hne].
    + rewrite list_lookup_insert_eq.
      2:{ revert Hlr. generalize (resize (n_batches + S full) 0%nat irr).
          intros l Hl. clear - Hl.
          assert (length (foldl (fun v i => <[i := 0%nat]> v) l
                            (seq n_batches full)) = length l) as ->.
          { generalize (seq n_batches full). intros idx. revert l Hl.
            induction idx as [|i idx IH]; intros l Hl; [reflexivity|].
            cbn [foldl]. rewrite IH by (rewrite length_insert; exact Hl).
            apply length_insert. }
          lia. }
      rewrite lookup_app_r by (rewrite length_take; lia).
      rewrite length_take, Nat.min_l by lia.
      rewrite lookup_app_r by (rewrite length_replicate; lia).
      rewrite length_replicate.
      replace (n_batches + full - n_batches - full)%nat with 0%nat by lia.
      reflexivity.
    + rewrite list_lookup_insert_ne by auto.
      rewrite lookup_zeroed, Hlr.
      destruct (decide (k < n_batches)%nat) as [Hlt|Hge].
      * rewrite bool_decide_eq_false_2 by lia.
        rewrite lookup_app_l by (rewrite length_take; lia).
        rewrite lookup_take_lt by lia.
        apply lookup_resize; lia.
      * destruct (decide (k < n_batches + full)%nat) as [Hin|Hout].
        -- rewrite (bool_decide_eq_true_2 (n_batches <= k < n_batches + full)%nat)
             by lia.
           rewrite (bool_decide_eq_true_2 (k < n_batches + S full)%nat)
             by lia.
           rewrite lookup_app_r by (rewrite length_take; lia).
           rewrite length_take, Nat.min_l by lia.
           rewrite lookup_app_l by (rewrite length_replicate; lia).
           symmetry. apply lookup_replicate_2. lia.
        -- rewrite bool_decide_eq_false_2 by lia.
           rewrite lookup_ge_None_2 by (rewrite Hlr; lia).
           symmetry. apply lookup_ge_None.
           rewrite length_app, length_take, length_app, length_replicate.
           cbn. lia.
Qed.

Lemma Assert_passes (build : bool) (exc : exception) :
  Assert build true exc = Returned tt.
Proof. unfold Assert. rewrite andb_false_r. reflexivity. Qed.

(** The partitioning with the ghost batches added. *)
Definition with_ghost_slots (partition : Partitioning)
  (n_batches n_ghost_slots : nat) : Partitioning :=
  {| renumbering := renumbering partition;
     irregular_cells :=
       take n_batches (irregular_cells partition)
         ++ ghost_entries n_ghost_slots;
     cell_partition_data :=
       cell_partition_data partition ++ [(n_batches + n_ghost_slots)%nat] |}.

(** What is left of [append_ghost_slots] are its two counts. *)
Lemma append_ghost_slots_checks (partition : Partitioning)
  (n_batches n_ghost_slots : nat) :
  (0 < n_lanes)%nat ->
  last (cell_partition_data partition) = Some n_batches ->
  (n_batches <= length (irregular_cells partition))%nat ->
  append_ghost_slots partition n_ghost_slots =
    (Assert debug
       (sum_list (lanes_of n_lanes <$>
                  take n_batches (irregular_cells partition))
        =? n_active_cells)%nat ExcDimensionMismatch ;;
     Assert debug
       (sum_list (lanes_of n_lanes <$> ghost_entries n_ghost_slots)
        =? n_ghost_cells)%nat ExcDimensionMismatch ;;
     Returned (with_ghost_slots partition n_batches n_ghost_slots)).
Proof.
  intros Hn Hback Hlen.
  unfold append_ghost_slots, back. rewrite Hback.
  cbn [mbind outcome_bind bind].
  assert ((n_batches <=? length (irregular_cells partition))%nat = true)
    as -> by (apply Nat.leb_le; exact Hlen).
  rewrite Assert_passes. cbn [mbind outcome_bind bind].
  rewrite (irregular_with_ghosts _ _ _ Hn Hlen).
  cbn [mbind outcome_bind bind].
  rewrite take_app_length' by (rewrite length_take; lia).
  rewrite drop_app_length' by (rewrite length_take; lia).
  rewrite (take_ge (ghost_entries n_ghost_slots))
    by (rewrite length_ghost_entries; lia).
  reflexivity.
Qed.

(** The end of the branch for threads appends the [n_ghost_slots]
    entries it is told to, for vector widths of at most 256 lanes (the
    entries are of type [unsigned char]): each of them 0, a full batch,
    but the last, which is [n_ghost_cells mod n_lanes]; the owned
    entries and the renumbering stay, and the partition data gains the
    number of all batches.  A build without assertions does so whatever
    the counts are.  A build with assertions returns exactly when the
    owned batches hold [n_active_cells] cells and [n_ghost_slots] is the
    number of batches the ghost cells need, [n_ghost_cells / n_lanes]
    rounded up; the ghost batches then hold [n_ghost_cells] cells. *)
Theorem append_ghost_slots_spec (partition : Partitioning)
  (n_batches n_ghost_slots : nat) :
  (0 < n_lanes <= 256)%nat ->
  last (cell_partition_data partition) = Some n_batches ->
  (n_batches <= length (irregular_cells partition))%nat ->
  let ghosts := ghost_entries n_ghost_slots in
  let result :=
    {| renumbering := renumbering partition;
       irregular_cells := take n_batches (irregular_cells partition) ++ ghosts;
       cell_partition_data :=
         cell_partition_data partition
           ++ [(n_batches + n_ghost_slots)%nat] |} in
  let owned :=
    sum_list (lanes_of n_lanes <$>
              take n_batches (irregular_cells partition)) in
  let needed := ((n_ghost_cells + n_lanes - 1) / n_lanes)%nat in
  length ghosts = n_ghost_slots /\
  (forall k, (k < n_ghost_slots)%nat ->
     ghosts !! k =
       Some (if (S k =? n_ghost_slots)%nat
             then (n_ghost_cells mod n_lanes)%nat else 0%nat)) /\
  (forall r,
     append_ghost_slots partition n_ghost_slots = Returned r -> r = result) /\
  (append_ghost_slots partition n_ghost_slots = Returned result <->
   debug = false \/ (owned = n_active_cells /\ n_ghost_slots = needed)) /\
  (n_ghost_slots = needed ->
   sum_list (lanes_of n_lanes <$> ghosts) = n_ghost_cells).
Proof.
  intros [Hn _] Hback Hlen ghosts result owned needed.
  pose proof (ghost_lanes_count n_ghost_slots Hn) as Hcount.
  fold ghosts needed in Hcount.
  split; [apply length_ghost_entries|].
  split; [apply lookup_ghost_entries|].
  rewrite (append_ghost_slots_checks _ _ _ Hn Hback Hlen).
  fold owned ghosts.
  change (with_ghost_slots partition n_batches n_ghost_slots) with result.
  unfold Assert.
  split; [|split; [|apply Hcount]].
  - intros r.
    destruct (debug && negb (owned =? n_active_cells)%nat);
      [discriminate|].
    cbn [mbind outcome_bind bind].
    destruct (debug && _); [discriminate|].
    cbn [mbind outcome_bind bind]. congruence.
  - destruct debug; cbn [andb mbind outcome_bind bind].
    + destruct (owned =? n_active_cells)%nat eqn:Eo;
        cbn [negb mbind outcome_bind bind].
      * apply Nat.eqb_eq in Eo.
        destruct (sum_list (lanes_of n_lanes <$> ghosts) =? n_ghost_cells)%nat
          eqn:Eg; cbn [negb mbind outcome_bind bind].
        -- apply Nat.eqb_eq in Eg. apply Hcount in Eg.
           split; [auto|reflexivity].
        -- apply Nat.eqb_neq in Eg. split; [discriminate|].
           intros [H|[_ H]]; [discriminate|]. apply Hcount in H. contradiction.
      * apply Nat.eqb_neq in Eo. split; [discriminate|].
        intros [H|[H _]]; [discriminate|contradiction].
    + split; [auto|reflexivity].
Qed.

(** **** Categories and threads *)

(** The branch for threads in a build without assertions. *)
Definition threads_branch (cell_level_index : list CellHandle)
  : outcome (list CellHandle * Partitioning) :=
  '(partition, n_ghost_slots) ← make_thread_graph hp_functionality_enabled;
  partition ← append_ghost_slots partition n_ghost_slots;
  n_batches ← back (cell_partition_data partition);
  cells ← renumber_cells n_lanes debug n_batches n_active_cells n_ghost_cells
            cell_level_index (renumbering partition)
            (irregular_cells partition);
  Returned (cells, partition).

(** C6 (amended).  In a build with assertions ([debug]), a non-empty
    [cell_vectorization_category] together with a scheme other than
    [none] never lets [compute_dof_info] return: once the DoF indices
    have been read, and before any partitioning, the call stops with the
    message that the two cannot be combined ([ExcMessage]); where a DoF
    handler has more than one finite element it stops earlier, with
    [ExcNotImplemented].  The outcome is that of reading the DoF indices
    followed by this stop, whatever the partitioning functions would
    return.  In a build without assertions nothing is reported: the
    outcome is that of reading the DoF indices followed by the branch
    for threads, and the call returns the cell batches whenever the
    loops before return and the partitioning for threads left a
    permutation of the cells, batches of at most [n_lanes] cells that
    hold the owned cells, and as many slots as the ghost cells need. *)
Theorem category_with_threads_is_reported (cell_level_index : list CellHandle) :
  cell_vectorization_category <> [] ->
  scheme <> none ->
  (debug = true ->
   compute_dof_info cell_level_index =
     (dof_handler_loop fe_collection_sizes 0 ;;
      read_dof_indices ;;
      Aborted ExcMessage) /\
   is_returned (compute_dof_info cell_level_index) = false /\
   (hp_functionality_enabled = true ->
    Forall (fun no => setup_dof_handler no = Returned tt)
           (seq 0 (length fe_collection_sizes)) ->
    compute_dof_info cell_level_index = Aborted ExcNotImplemented) /\
   (dof_handler_loop fe_collection_sizes 0 = Returned tt ->
    read_dof_indices = Returned tt ->
    compute_dof_info cell_level_index = Aborted ExcMessage)) /\
  (debug = false ->
   compute_dof_info cell_level_index =
     (dof_handler_loop fe_collection_sizes 0 ;;
      read_dof_indices ;;
      threads_branch cell_level_index) /\
   forall partition n_ghost_slots n_batches,
     dof_handler_loop fe_collection_sizes 0 = Returned tt ->
     read_dof_indices = Returned tt ->
     make_thread_graph hp_functionality_enabled =
       Returned (partition, n_ghost_slots) ->
     (0 < n_lanes)%nat ->
     last (cell_partition_data partition) = Some n_batches ->
     (n_batches <= length (irregular_cells partition))%nat ->
     Forall (fun irr => (irr <= n_lanes)%nat)
            (take n_batches (irregular_cells partition)) ->
     sum_list (lanes_of n_lanes <$>
               take n_batches (irregular_cells partition)) =
       n_active_cells ->
     n_ghost_slots = ((n_ghost_cells + n_lanes - 1) / n_lanes)%nat ->
     length cell_level_index = (n_active_cells + n_ghost_cells)%nat ->
     renumbering partition ≡ₚ seq 0 (length cell_level_index) ->
     exists cells,
       compute_dof_info cell_level_index =
         Returned
           (cells,
            {| renumbering := renumbering partition;
               irregular_cells :=
                 take n_batches (irregular_cells partition)
                   ++ ghost_entries n_ghost_slots;
               cell_partition_data :=
                 cell_partition_data partition
                   ++ [(n_batches + n_ghost_slots)%nat] |})).
Proof.
  intros Hcat Hscheme.
  assert (is_none scheme = false) as Hnone
    by (destruct scheme; [congruence|reflexivity..]).
  split.
  - intros Hdebug.
    assert (compute_dof_info cell_level_index =
            (dof_handler_loop fe_collection_sizes 0 ;;
             read_dof_indices ;; Aborted ExcMessage)) as Heq.
    { unfold compute_dof_info, Assert. rewrite Hdebug, Hnone.
      rewrite bool_decide_eq_false_2 by exact Hcat. reflexivity. }
    split; [exact Heq|]. split; [|split].
    + rewrite Heq.
      destruct (dof_handler_loop fe_collection_sizes 0) as [[]| | |];
        [|reflexivity..].
      destruct read_dof_indices as [[]| | |]; reflexivity.
    + rewrite Heq. clear Heq. unfold hp_functionality_enabled.
      assert (forall sizes no,
                 existsb (fun size => (1 <? size)%nat) sizes = true ->
                 Forall (fun no => setup_dof_handler no = Returned tt)
                        (seq no (length sizes)) ->
                 (dof_handler_loop sizes no ;;
                  read_dof_indices ;; Aborted ExcMessage) =
                 (Aborted ExcNotImplemented
                  : outcome (list CellHandle * Partitioning))) as Haux;
        [|apply Haux].
      intros sizes.
      induction sizes as [|size sizes IH]; intros no Hhp Hsetup;
        [discriminate|].
      cbn [length seq] in Hsetup. apply Forall_cons in Hsetup.
      destruct Hsetup as [Hno Hsetup].
      cbn [dof_handler_loop]. unfold Assert. rewrite Hdebug.
      rewrite bool_decide_eq_false_2 by exact Hcat.
      destruct (1 <? size)%nat eqn:Hsize; [reflexivity|].
      rewrite Hno. cbn [mbind outcome_bind bind].
      cbn [existsb] in Hhp. rewrite Hsize in Hhp.
      apply (IH (S no) Hhp Hsetup).
    + intros Hloop Hread. rewrite Heq, Hloop, Hread. reflexivity.
  - intros Hdebug.
    assert (compute_dof_info cell_level_index =
            (dof_handler_loop fe_collection_sizes 0 ;;
             read_dof_indices ;; threads_branch cell_level_index)) as Heq.
    { unfold compute_dof_info, threads_branch, Assert.
      rewrite Hdebug, Hnone.
      destruct (dof_handler_loop fe_collection_sizes 0) as [[]| | |];
        [|reflexivity..].
      destruct read_dof_indices as [[]| | |]; [|reflexivity..].
      cbn [andb mbind outcome_bind bind].
      destruct (make_thread_graph hp_functionality_enabled)
        as [[partition n_ghost_slots]| | |]; reflexivity. }
    split; [exact Heq|].
    intros partition n_ghost_slots n_batches Hloop Hread Hgraph Hn Hback
      Hlen Hirr Howned Hslots Hcells Hperm.
    rewrite Heq, Hloop, Hread. cbn [mbind outcome_bind bind].
    unfold threads_branch. rewrite Hgraph. cbn [mbind outcome_bind bind].
    rewrite (append_ghost_slots_checks _ _ _ Hn Hback Hlen).
    unfold Assert. rewrite Hdebug. cbn [andb mbind outcome_bind bind].
    unfold back. cbn [with_ghost_slots cell_partition_data renumbering
                        irregular_cells].
    rewrite last_snoc. cbn [mbind outcome_bind bind].
    pose proof (ghost_lanes_count n_ghost_slots Hn) as Hcount.
    destruct (renumber_cells_returns n_lanes false
                (n_batches + n_ghost_slots) n_active_cells n_ghost_cells
                cell_level_index (renumbering partition)
                (take n_batches (irregular_cells partition)
                   ++ ghost_entries n_ghost_slots)) as (cells & ->).
    + exact Hn.
    + rewrite length_app, length_take, length_ghost_entries. lia.
    + rewrite take_ge
        by (rewrite length_app, length_take, length_ghost_entries; lia).
      apply Forall_app. split; [exact Hirr|].
      apply Forall_forall. intros x Hx.
      apply list_elem_of_lookup in Hx. destruct Hx as [k Hk].
      pose proof (lookup_lt_Some _ _ _ Hk) as Hlt.
      rewrite length_ghost_entries in Hlt.
      rewrite (lookup_ghost_entries _ _ Hlt) in Hk. injection Hk as <-.
      pose proof (Nat.mod_upper_bound n_ghost_cells n_lanes).
      cbn beta.
      match goal with |- context [if ?b then _ else _] => destruct b end;
        lia.
    + exact Hcells.
    + exact Hperm.
    + unfold lane_counts.
      rewrite take_ge
        by (rewrite length_app, length_take, length_ghost_entries; lia).
      rewrite fmap_app, sum_list_with_app.
      change (sum_list_with id ?l) with (sum_list l).
      rewrite Howned. f_equal. apply Hcount. exact Hslots.
    + cbn [mbind outcome_bind bind]. eauto.
Qed.

End ComputeDoFInfo.

(** *** The constraint pool of [initialize_indices] (lines 1340-1363) *)

Section ConstraintPool.
(** The number type of the coefficients. *)
Context {Number : Type}.
Variable debug : bool.










(** **** Properties of the constraint pool *)

















End ConstraintPool.

(** *** Batches and pools of small meshes *)

(** Four cells on level 0. *)
Definition four_cells : list CellHandle :=
  [(0, 0); (0, 1); (0, 2); (0, 3)]%nat.

(** Three owned cells and one ghost cell in batches of two lanes, as the
    partitioning for threads leaves them: a full batch and a batch of one
    cell, to which [append_ghost_slots] adds the batch of the ghost cell. *)
Definition owned_batches : Partitioning :=
  {| renumbering := [0; 1; 2; 3]%nat;
     irregular_cells := [0; 1]%nat;
     cell_partition_data := [0; 2]%nat |}.

Definition owned_and_ghost_batches : Partitioning :=
  {| renumbering := [0; 1; 2; 3]%nat;
     irregular_cells := [0; 1; 1]%nat;
     cell_partition_data := [0; 2; 3]%nat |}.


(** In the second mesh above lane 0 of batch 2 is active, and flat
    position 2 * 2 + 0 holds the cell at position 3 of the renumbered
    sequence, which has no position 4: the batch before holds one cell
    only. *)
Lemma flat_position_counterexample :
  append_ghost_slots 2 true 3 1 owned_batches 1 =
    Returned owned_and_ghost_batches /\
  exists flat,
    renumber_cells 2 true 3 3 1 four_cells [0; 1; 2; 3]%nat [0; 1; 1]%nat =
      Returned flat /\
    flat !! (2 * 2 + 0)%nat = Some (0, 3)%nat /\
    cell_of four_cells [0; 1; 2; 3]%nat (2 * 2 + 0) = None /\
    cell_of four_cells [0; 1; 2; 3]%nat 3 = Some (0, 3)%nat /\
    position_of 2 [0; 1; 1]%nat 2 = 3%nat.
Proof.
  split; [vm_compute; reflexivity|].
  exists [(0, 0); (0, 1); (0, 2); (0, 2); (0, 3); (0, 3)]%nat.
  vm_compute. repeat split; reflexivity.
Qed.

(** The theorem on the layout, at the second mesh. *)
Lemma batch_layout_witness :
  exists flat,
    renumber_cells 2 true 3 3 1 four_cells [0; 1; 2; 3]%nat [0; 1; 1]%nat =
      Returned flat /\
    Forall (fun irr => (irr <= 2)%nat) (take 3 [0; 1; 1]%nat) /\
    length flat = 6%nat /\
    flat !! (2 * 2 + 0)%nat = cell_of four_cells [0; 1; 2; 3]%nat 3.
Proof.
  exists [(0, 0); (0, 1); (0, 2); (0, 2); (0, 3); (0, 3)]%nat.
  assert (Forall (fun irr => (irr <= 2)%nat) (take 3 [0; 1; 1]%nat)) as Hirr
    by (cbn; repeat constructor).
  split; [reflexivity|]. split; [exact Hirr|].
  destruct (batch_layout 2 true 3 3 1 four_cells [0; 1; 2; 3]%nat
              [0; 1; 1]%nat Hirr) as (_ & Hflat).
  destruct (Hflat _ eq_refl) as (Hl & Hcell & _).
  split; [exact Hl|].
  destruct (Hcell 2%nat 0%nat) as (irr & Hi & _ & Hf); [lia..|].
  injection Hi as <-. exact Hf.
Defined.


(** The partitioning of two cells into one batch. *)
Definition one_batch : Partitioning :=
  {| renumbering := [0; 1]%nat;
     irregular_cells := [0]%nat;
     cell_partition_data := [0; 1]%nat |}.

(** The theorem on categories and threads, at a build with assertions
    and at one without. *)
Lemma category_with_threads_is_reported_witness :
  [0; 0]%nat <> [] /\ partition_color <> none /\
  compute_dof_info 2 true partition_color 2 0 [1%nat] [0; 0]%nat false
    (fun _ => Returned tt) (Returned tt) (fun _ _ => one_batch)
    (fun _ => Returned (one_batch, 0%nat)) [(0, 0); (0, 1)]%nat =
  Aborted ExcMessage /\
  exists cells,
    compute_dof_info 2 false partition_color 2 0 [1%nat] [0; 0]%nat false
      (fun _ => Returned tt) (Returned tt) (fun _ _ => one_batch)
      (fun _ => Returned (one_batch, 0%nat)) [(0, 0); (0, 1)]%nat =
    Returned (cells,
              {| renumbering := [0; 1]%nat;
                 irregular_cells := [0]%nat;
                 cell_partition_data := [0; 1; 1]%nat |}).
Proof.
  assert ([0; 0]%nat <> []) as Hcat by discriminate.
  assert (partition_color <> none) as Hscheme by discriminate.
  split; [exact Hcat|]. split; [exact Hscheme|]. split.
  - destruct (category_with_threads_is_reported 2 true partition_color 2 0
                [1%nat] [0; 0]%nat false (fun _ => Returned tt) (Returned tt)
                (fun _ _ => one_batch) (fun _ => Returned (one_batch, 0%nat))
                [(0, 0); (0, 1)]%nat Hcat Hscheme)
      as (H & _).
    destruct (H eq_refl) as (_ & _ & _ & H'). apply H'; reflexivity.
  - destruct (category_with_threads_is_reported 2 false partition_color 2 0
                [1%nat] [0; 0]%nat false (fun _ => Returned tt) (Returned tt)
                (fun _ _ => one_batch) (fun _ => Returned (one_batch, 0%nat))
                [(0, 0); (0, 1)]%nat Hcat Hscheme)
      as (_ & H).
    destruct (H eq_refl) as (_ & H').
    apply (H' one_batch 0%nat 1%nat);
      first [reflexivity | cbn; lia | cbn; repeat constructor].
Defined.

(** The theorem on the ghost batches, at three owned cells and one ghost
    cell in two lanes. *)
Lemma append_ghost_slots_spec_witness :
  (0 < 2 <= 256)%nat /\
  append_ghost_slots 2 true 3 1 owned_batches 1 =
    Returned owned_and_ghost_batches.
Proof.
  assert (0 < 2 <= 256)%nat as Hn by lia.
  split; [exact Hn|].
  destruct (append_ghost_slots_spec 2 true 3 1 owned_batches 2 1 Hn
              eq_refl (le_n 2)) as (_ & _ & _ & H & _).
  apply H. right. split; reflexivity.
Defined.

(** The same call in a build without assertions: the check is compiled
    out, the branch for threads runs, and the call returns the batches;
    no error is reported. *)
Lemma release_build_counterexample :
  compute_dof_info 2 false partition_color 2 0 [1%nat] [0; 0]%nat false
    (fun _ => Returned tt) (Returned tt) (fun _ _ => one_batch)
    (fun _ => Returned (one_batch, 0%nat)) [(0, 0); (0, 1)]%nat =
  Returned ([(0, 0); (0, 1)]%nat,
            {| renumbering := [0; 1]%nat;
               irregular_cells := [0]%nat;
               cell_partition_data := [0; 1; 1]%nat |}).
Proof. vm_compute. reflexivity. Qed.


(** *** Queries on the initialised object *)

(** The fields of [DoFInfo] that the queries below read. *)
Record DoFInfo : Type := {
  max_fe_index : nat;
  cell_active_fe_index : list nat
}.

(** [std::lower_bound(v.begin() + first, v.begin() + first + count, value)
    - v.begin()]: the bisection of the standard library, which halves the
    [count] positions that are left. *)
Fixpoint lower_bound_loop (fuel : nat) (v : list nat)
  (first count value : nat) : outcome nat :=
  match fuel with
  | O => Returned first
  | S fuel' =>
      if (count =? 0)%nat then Returned first
      else
        let step := (count / 2)%nat in
        let it := (first + step)%nat in
        x ← at_index v it;
        if (x <? value)%nat
        then lower_bound_loop fuel' v (S it) (count - (step + 1)) value
        else lower_bound_loop fuel' v first step value
  end.

(** A range whose end lies before its start is no range. *)
Definition lower_bound (v : list nat) (first last value : nat)
  : outcome nat :=
  if (last <? first)%nat then Undefined
  else lower_bound_loop (last - first) v first (last - first) value.

(** The loop of the [#ifdef DEBUG] block (lines 96-101). *)
Fixpoint assert_sorted (fe_indices : list nat) (positions : list nat)
  : outcome unit :=
  match positions with
  | [] => Returned tt
  | i :: rest =>
      x ← at_index fe_indices i;
      y ← at_index fe_indices (i - 1);
      Assert true (y <=? x)%nat ExcMessage ;;
      assert_sorted fe_indices rest
  end.

(** [MatrixFree::create_cell_subrange_hp_by_index] (lines 80-120). *)
Definition create_cell_subrange_hp_by_index (debug : bool)
  (dof_info : list DoFInfo) (range : nat * nat) (fe_index : nat)
  (vector_component : nat) : outcome (nat * nat) :=
  info ← at_index dof_info vector_component;
  Assert debug (fe_index <? max_fe_index info)%nat ExcIndexRange ;;
  let fe_indices := cell_active_fe_index info in
  if bool_decide (fe_indices = []) then Returned range
  else
    (if debug then
       assert_sorted fe_indices (seq (S range.1) (range.2 - S range.1)) ;;
       Assert true (range.1 <? length fe_indices + 1)%nat ExcIndexRange ;;
       Assert true (range.2 <? length fe_indices + 1)%nat ExcIndexRange
     else Returned tt) ;;
    first ← lower_bound fe_indices range.1 range.2 fe_index;
    second ← lower_bound fe_indices first range.2 (fe_index + 1);
    Assert debug ((range.1 <=? first)%nat && (second <=? range.2)%nat)
      ExcInternalError ;;
    Returned (first, second).

(** [v] does not decrease over the positions [first, last). *)
Definition sorted_over (v : list nat) (first last : nat) : Prop :=
  forall i j x y,
    (first <= i <= j)%nat -> (j < last)%nat ->
    v !! i = Some x -> v !! j = Some y -> (x <= y)%nat.

Lemma lower_bound_loop_spec fuel v first count value :
  (count <= fuel)%nat ->
  (first + count <= length v)%nat ->
  sorted_over v first (first + count) ->
  exists k,
    lower_bound_loop fuel v first count value = Returned k /\
    (first <= k <= first + count)%nat /\
    (forall i x, (first <= i < k)%nat -> v !! i = Some x -> (x < value)%nat) /\
    (forall i x, (k <= i < first + count)%nat -> v !! i = Some x ->
                 (value <= x)%nat).
Proof.
  revert first count.
  induction fuel as [|fuel IH]; intros first count Hf Hl Hs.
  - exists first. cbn. repeat split; intros; lia.
  - cbn [lower_bound_loop]. destruct (count =? 0)%nat eqn:Hc.
    + apply Nat.eqb_eq in Hc. exists first. repeat split; intros; lia.
    + apply Nat.eqb_neq in Hc.
      assert (count / 2 < count)%nat as Hstep by (apply Nat.div_lt; lia).
      set (step := (count / 2)%nat) in *.
      destruct (lookup_lt_is_Some_2 v (first + step)) as [x Hx]; [lia|].
      apply at_index_returned in Hx as Hx'. rewrite Hx'.
      cbn [mbind outcome_bind bind].
      destruct (x <? value)%nat eqn:Hlt.
      * apply Nat.ltb_lt in Hlt.
        destruct (IH (S (first + step)) (count - (step + 1))%nat)
          as (k & R & Hk & Hbelow & Habove); [lia|lia| |].
        { intros i j a b Hij Hj. apply Hs; lia. }
        exists k. split; [exact R|]. split; [lia|]. split.
        -- intros i a Hi Ha.
           destruct (Nat.le_gt_cases i (first + step)) as [Hle|Hgt].
           ++ pose proof (Hs i (first + step)%nat a x) as Hax.
              assert (a <= x)%nat by (apply Hax; [lia|lia|assumption..]).
              lia.
           ++ apply (Hbelow i a); [lia|assumption].
        -- intros i a Hi Ha. apply (Habove i a); [lia|assumption].
      * apply Nat.ltb_ge in Hlt.
        destruct (IH first step) as (k & R & Hk & Hbelow & Habove);
          [lia|lia| |].
        { intros i j a b Hij Hj. apply Hs; lia. }
        exists k. split; [exact R|]. split; [lia|]. split.
        -- exact Hbelow.
        -- intros i a Hi Ha.
           destruct (Nat.lt_ge_cases i (first + step)) as [Hlo|Hhi].
           ++ apply (Habove i a); [lia|assumption].
           ++ pose proof (Hs (first + step)%nat i x a) as Hxa.
              assert (x <= a)%nat by (apply Hxa; [lia|lia|assumption..]).
              lia.
Qed.

Lemma lower_bound_spec v first last value :
  (first <= last <= length v)%nat ->
  sorted_over v first last ->
  exists k,
    lower_bound v first last value = Returned k /\
    (first <= k <= last)%nat /\
    (forall i x, (first <= i < k)%nat -> v !! i = Some x -> (x < value)%nat) /\
    (forall i x, (k <= i < last)%nat -> v !! i = Some x -> (value <= x)%nat).
Proof.
  intros Hr Hs. unfold lower_bound.
  assert ((last <? first)%nat = false) as -> by (apply Nat.ltb_ge; lia).
  destruct (lower_bound_loop_spec (last - first) v first (last - first) value)
    as (k & R & Hk & Hbelow & Habove); [lia|lia| |].
  { replace (first + (last - first))%nat with last by lia. exact Hs. }
  replace (first + (last - first))%nat with last in * by lia.
  exists k. auto.
Qed.

Lemma assert_sorted_returns v first last :
  (last <= length v)%nat ->
  sorted_over v first last ->
  assert_sorted v (seq (S first) (last - S first)) = Returned tt.
Proof.
  intros Hl Hs.
  assert (forall positions,
             Forall (fun i => (first < i < last)%nat) positions ->
             assert_sorted v positions = Returned tt) as Haux.
  { induction positions as [|i rest IH]; intros Hf; [reflexivity|].
    inversion Hf as [|? ? Hi Hrest]; subst. cbn [assert_sorted].
    destruct (lookup_lt_is_Some_2 v i) as [x Hx]; [lia|].
    destruct (lookup_lt_is_Some_2 v (i - 1)) as [y Hy]; [lia|].
    pose proof (Hs (i - 1)%nat i y x) as Hyx.
    assert (y <= x)%nat as Hle by (apply Hyx; [lia|lia|assumption..]).
    apply at_index_returned in Hx, Hy. rewrite Hx, Hy.
    cbn [mbind outcome_bind bind]. unfold Assert.
    apply Nat.leb_le in Hle. rewrite Hle. cbn. apply IH, Hrest. }
  apply Haux. apply Forall_forall. intros i Hi.
  apply elem_of_seq in Hi. lia.
Qed.

(** With no active fe indices stored the range comes back as it is.
    Otherwise, for a range of positions over which the indices are
    sorted, the result is the part of the range that holds [fe_index]:
    a position of the range holds it exactly when it lies in the
    result. *)
Theorem create_cell_subrange_hp_by_index_spec (debug : bool)
  (dof_info : list DoFInfo) (info : DoFInfo) (first last fe_index : nat)
  (vector_component : nat) :
  dof_info !! vector_component = Some info ->
  (fe_index < max_fe_index info)%nat ->
  (cell_active_fe_index info = [] ->
   create_cell_subrange_hp_by_index debug dof_info (first, last) fe_index
     vector_component = Returned (first, last)) /\
  (cell_active_fe_index info <> [] ->
   (first <= last <= length (cell_active_fe_index info))%nat ->
   sorted_over (cell_active_fe_index info) first last ->
   exists a b,
     create_cell_subrange_hp_by_index debug dof_info (first, last) fe_index
       vector_component = Returned (a, b) /\
     (first <= a <= b)%nat /\ (b <= last)%nat /\
     forall i x,
       (first <= i < last)%nat ->
       cell_active_fe_index info !! i = Some x ->
       (x = fe_index <-> (a <= i < b)%nat)).
Proof.
  intros Hinfo Hfe.
  apply at_index_returned in Hinfo.
  assert (Assert debug (fe_index <? max_fe_index info)%nat ExcIndexRange =
          Returned tt) as Hassert.
  { unfold Assert. apply Nat.ltb_lt in Hfe. rewrite Hfe, andb_false_r.
    reflexivity. }
  split.
  - intros Hempty. unfold create_cell_subrange_hp_by_index.
    rewrite Hinfo. cbn [mbind outcome_bind bind]. rewrite Hassert.
    cbn [mbind outcome_bind bind].
    rewrite bool_decide_eq_true_2 by exact Hempty. reflexivity.
  - intros Hne Hr Hs.
    set (v := cell_active_fe_index info) in *.
    destruct (lower_bound_spec v first last fe_index Hr Hs)
      as (a & Ra & Ha & Hbelow_a & Habove_a).
    destruct (lower_bound_spec v a last (fe_index + 1))
      as (b & Rb & Hb & Hbelow_b & Habove_b); [lia| |].
    { intros i j x y Hij Hj. apply Hs; lia. }
    exists a, b. split; [|split; [lia|split; [lia|]]].
    + unfold create_cell_subrange_hp_by_index.
      rewrite Hinfo. cbn [mbind outcome_bind bind]. rewrite Hassert.
      cbn [mbind outcome_bind bind]. fold v.
      rewrite bool_decide_eq_false_2 by exact Hne.
      assert ((if debug
               then assert_sorted v
                      (seq (S (first, last).1)
                           ((first, last).2 - S (first, last).1)) ;;
                    Assert true ((first, last).1 <? length v + 1)%nat
                      ExcIndexRange ;;
                    Assert true ((first, last).2 <? length v + 1)%nat
                      ExcIndexRange
               else Returned tt) = Returned tt) as ->.
      { destruct debug; [|reflexivity]. cbn [fst snd].
        rewrite assert_sorted_returns by (lia || exact Hs).
        cbn [mbind outcome_bind bind]. unfold Assert.
        assert ((first <? length v + 1)%nat = true) as ->
          by (apply Nat.ltb_lt; lia).
        assert ((last <? length v + 1)%nat = true) as ->
          by (apply Nat.ltb_lt; lia).
        reflexivity. }
      cbn [mbind outcome_bind bind fst snd]. rewrite Ra.
      cbn [mbind outcome_bind bind]. rewrite Rb.
      cbn [mbind outcome_bind bind]. unfold Assert.
      assert ((first <=? a)%nat = true) as -> by (apply Nat.leb_le; lia).
      assert ((b <=? last)%nat = true) as -> by (apply Nat.leb_le; lia).
      cbn [andb negb]. rewrite andb_false_r. reflexivity.
    + intros i x Hi Hx. split.
      * intros ->.
        destruct (Nat.lt_ge_cases i a) as [Hlo|Hhi].
        { assert (fe_index < fe_index)%nat
            by (apply (Hbelow_a i fe_index); [lia|exact Hx]).
          lia. }
        destruct (Nat.lt_ge_cases i b) as [Hin|Hout]; [lia|].
        assert (fe_index + 1 <= fe_index)%nat
          by (apply (Habove_b i fe_index); [lia|exact Hx]).
        lia.
      * intros Hab.
        assert (fe_index <= x)%nat
          by (apply (Habove_a i x); [lia|exact Hx]).
        assert (x < fe_index + 1)%nat
          by (apply (Hbelow_b i x); [lia|exact Hx]).
        lia.
Qed.

(** Positions 1 to 5 of six cells hold the indices 0, 1, 1, 1, 2; those
    with index 1 are the positions 2, 3 and 4. *)
Lemma create_cell_subrange_hp_by_index_spec_witness :
  exists a b,
    create_cell_subrange_hp_by_index true
      [{| max_fe_index := 3; cell_active_fe_index := [0; 0; 1; 1; 1; 2] |}]
      (1, 6)%nat 1 0 = Returned (a, b) /\
    a = 2%nat /\ b = 5%nat.
Proof.
  destruct (create_cell_subrange_hp_by_index_spec true
              [{| max_fe_index := 3;
                  cell_active_fe_index := [0; 0; 1; 1; 1; 2] |}]
              {| max_fe_index := 3;
                 cell_active_fe_index := [0; 0; 1; 1; 1; 2] |}
              1 6 1 0 eq_refl (le_S 2 2 (le_n 2))) as [_ H].
  destruct H as (a & b & R & _).
  - discriminate.
  - cbn. lia.
  - intros i j x y Hij Hj Hx Hy.
    do 6 (destruct i as [|i]; [do 6 (destruct j as [|j];
      [cbn in Hx, Hy; injection Hx as <-; injection Hy as <-; lia|]);
      cbn in Hj; lia|]).
    cbn in Hj. lia.
  - exists a, b. split; [exact R|].
    assert (create_cell_subrange_hp_by_index true
              [{| max_fe_index := 3;
                  cell_active_fe_index := [0; 0; 1; 1; 1; 2] |}]
              (1, 6)%nat 1 0 = Returned (2, 5)%nat) as R'
      by (vm_compute; reflexivity).
    rewrite R' in R. injection R as <- <-. auto.
Defined.


(** *** The map from cells to positions ([fill_index_subrange],
    lines 596-612) *)

(** [map.insert(std::make_pair(key, value))] on an unordered map: an
    entry that is there stays as it is. *)
Definition insert_new (key : CellHandle) (value : nat)
  (map : gmap CellHandle nat) : gmap CellHandle nat :=
  match map !! key with
  | Some _ => map
  | None => <[key := value]> map
  end.

(** The loop [for (; cell < end; ++cell)] over the positions it visits. *)
Fixpoint fill_index_loop (cell_level_index : list CellHandle)
  (positions : list nat) (map : gmap CellHandle nat)
  : outcome (gmap CellHandle nat) :=
  match positions with
  | [] => Returned map
  | cell :: rest =>
      current ← at_index cell_level_index cell;
      before ← at_index cell_level_index (cell - 1);
      fill_index_loop cell_level_index rest
        (if bool_decide (current <> before)
         then insert_new current cell map else map)
  end.

Definition fill_index_subrange (begin end_ : nat)
  (cell_level_index : list CellHandle) (map : gmap CellHandle nat)
  : outcome (gmap CellHandle nat) :=
  if bool_decide (cell_level_index = []) then Returned map
  else
    '(map, cell) ←
      (if (begin =? 0)%nat then
         first ← at_index cell_level_index 0;
         Returned (insert_new first 0 map, 1%nat)
       else Returned (map, begin));
    fill_index_loop cell_level_index (seq cell (end_ - cell)) map.

(** What the map holds when the positions before [c] have been visited:
    every cell met so far is a key, and a key's value is a position that
    holds it and is not above any other such position. *)
Definition first_positions (cell_level_index : list CellHandle) (c : nat)
  (map : gmap CellHandle nat) : Prop :=
  (forall i key, (i < c)%nat -> cell_level_index !! i = Some key ->
                 exists j, map !! key = Some j /\ (j <= i)%nat) /\
  (forall key j, map !! key = Some j ->
                 (j < c)%nat /\ cell_level_index !! j = Some key).

Lemma insert_new_lookup key value map key' :
  insert_new key value map !! key' =
  match map !! key' with
  | Some j => Some j
  | None => if bool_decide (key = key') then Some value else None
  end.
Proof.
  unfold insert_new. destruct (decide (key = key')) as [<-|Hne].
  - rewrite bool_decide_eq_true_2 by reflexivity.
    destruct (map !! key) as [j|] eqn:E; [exact E|apply lookup_insert_eq].
  - rewrite bool_decide_eq_false_2 by exact Hne.
    destruct (map !! key) as [j|] eqn:E.
    + destruct (map !! key'); reflexivity.
    + rewrite lookup_insert_ne by exact Hne.
      destruct (map !! key'); reflexivity.
Qed.

Lemma fill_index_loop_spec cell_level_index n :
  forall c map,
  (1 <= c)%nat ->
  (c + n <= length cell_level_index)%nat ->
  first_positions cell_level_index c map ->
  exists map',
    fill_index_loop cell_level_index (seq c n) map = Returned map' /\
    first_positions cell_level_index (c + n) map'.
Proof.
  induction n as [|n IH]; intros c map Hc Hl Hinv.
  - exists map. rewrite Nat.add_0_r. auto.
  - cbn [seq fill_index_loop].
    destruct (lookup_lt_is_Some_2 cell_level_index c) as [cur Hcur]; [lia|].
    destruct (lookup_lt_is_Some_2 cell_level_index (c - 1)) as [prev Hprev];
      [lia|].
    apply at_index_returned in Hcur as Rcur.
    apply at_index_returned in Hprev as Rprev.
    rewrite Rcur. cbn [mbind outcome_bind bind].
    rewrite Rprev. cbn [mbind outcome_bind bind].
    replace (c + S n)%nat with (S c + n)%nat by lia.
    apply IH; [lia|lia|].
    destruct Hinv as [Hfound Hsound].
    destruct (decide (cur = prev)) as [->|Hne].
    + rewrite bool_decide_eq_false_2 by auto. split.
      * intros i key Hi Hkey.
        destruct (decide (i = c)) as [->|Hic].
        -- rewrite Hcur in Hkey. injection Hkey as <-.
           destruct (Hfound (c - 1)%nat prev) as (j & Hj & Hle);
             [lia|exact Hprev|].
           exists j. split; [exact Hj|lia].
        -- apply Hfound; [lia|exact Hkey].
      * intros key j Hj. destruct (Hsound key j Hj). split; [lia|assumption].
    + rewrite bool_decide_eq_true_2 by exact Hne. split.
      * intros i key Hi Hkey. rewrite insert_new_lookup.
        destruct (decide (i = c)) as [->|Hic].
        -- rewrite Hcur in Hkey. injection Hkey as <-.
           destruct (map !! cur) as [j|] eqn:E.
           ++ exists j. split; [reflexivity|].
              destruct (Hsound cur j E). lia.
           ++ rewrite bool_decide_eq_true_2 by reflexivity.
              exists c. split; [reflexivity|lia].
        -- destruct (Hfound i key) as (j & Hj & Hle); [lia|exact Hkey|].
           rewrite Hj. eauto.
      * intros key j Hj. rewrite insert_new_lookup in Hj.
        destruct (map !! key) as [j'|] eqn:E.
        -- injection Hj as <-. destruct (Hsound key j' E).
           split; [lia|assumption].
        -- destruct (decide (cur = key)) as [<-|Hk].
           ++ rewrite bool_decide_eq_true_2 in Hj by reflexivity.
              injection Hj as <-. split; [lia|exact Hcur].
           ++ rewrite bool_decide_eq_false_2 in Hj by exact Hk.
              discriminate.
Qed.

Lemma fill_index_loop_app cell_level_index positions positions' map :
  fill_index_loop cell_level_index (positions ++ positions') map =
  fill_index_loop cell_level_index positions map ≫=
    fill_index_loop cell_level_index positions'.
Proof.
  revert map. induction positions as [|cell rest IH]; intros map;
    [reflexivity|].
  cbn [app fill_index_loop].
  destruct (at_index cell_level_index cell) as [current| | |];
    try reflexivity.
  cbn [mbind outcome_bind bind].
  destruct (at_index cell_level_index (cell - 1)) as [before| | |];
    try reflexivity.
  cbn [mbind outcome_bind bind]. apply IH.
Qed.

(** Started on an empty map for the positions from 0 on, the function
    leaves the map that takes each cell of the range to the first
    position that holds it; position 0 is entered even when the range is
    empty.  On an empty [cell_level_index] the map stays as it is. *)
Theorem fill_index_subrange_first_position (end_ : nat)
  (cell_level_index : list CellHandle) :
  (end_ <= length cell_level_index)%nat ->
  (cell_level_index = [] ->
   forall begin map,
     fill_index_subrange begin end_ cell_level_index map = Returned map) /\
  (cell_level_index <> [] ->
   exists map,
     fill_index_subrange 0 end_ cell_level_index ∅ = Returned map /\
     forall key j,
       map !! key = Some j <->
       ((j < Nat.max 1 end_)%nat /\
        cell_level_index !! j = Some key /\
        forall i, (i < j)%nat -> cell_level_index !! i <> Some key)).
Proof.
  intros Hend. split.
  - intros -> begin map. reflexivity.
  - intros Hne. unfold fill_index_subrange.
    rewrite bool_decide_eq_false_2 by exact Hne.
    destruct cell_level_index as [|first rest] eqn:Hcli; [congruence|].
    rewrite <- Hcli in *. clear Hne.
    assert (cell_level_index !! 0%nat = Some first) as H0
      by (rewrite Hcli; reflexivity).
    assert (1 <= length cell_level_index)%nat as Hlen
      by (rewrite Hcli; cbn; lia).
    apply at_index_returned in H0 as R0.
    cbn [Nat.eqb]. rewrite R0. cbn [mbind outcome_bind bind].
    destruct (fill_index_loop_spec cell_level_index (end_ - 1) 1
                (insert_new first 0 ∅)) as (map & R & Hfound & Hsound);
      [lia|lia| |].
    { split.
      - intros i key Hi Hkey. assert (i = 0%nat) as -> by lia.
        rewrite H0 in Hkey. injection Hkey as <-.
        exists 0%nat. rewrite insert_new_lookup, lookup_empty.
        rewrite bool_decide_eq_true_2 by reflexivity. auto.
      - intros key j Hj. rewrite insert_new_lookup, lookup_empty in Hj.
        destruct (decide (first = key)) as [<-|Hk].
        + rewrite bool_decide_eq_true_2 in Hj by reflexivity.
          injection Hj as <-. split; [lia|exact H0].
        + rewrite bool_decide_eq_false_2 in Hj by exact Hk. discriminate. }
    replace (1 + (end_ - 1))%nat with (Nat.max 1 end_) in * by lia.
    exists map. split; [exact R|].
    intros key j. split.
    + intros Hj. destruct (Hsound key j Hj) as [Hlt Hkey].
      split; [exact Hlt|]. split; [exact Hkey|].
      intros i Hi Hik.
      destruct (Hfound i key) as (j' & Hj' & Hle); [lia|exact Hik|].
      rewrite Hj in Hj'. injection Hj' as <-. lia.
    + intros (Hlt & Hkey & Hfirst).
      destruct (Hfound j key Hlt Hkey) as (j' & Hj' & Hle).
      destruct (Hsound key j' Hj') as [_ Hkey'].
      destruct (decide (j' = j)) as [->|Hnej]; [exact Hj'|].
      exfalso. apply (Hfirst j'); [lia|exact Hkey'].
Qed.

(** Visiting a range in two parts, one after the other, leaves the same
    map as visiting it at once. *)
Theorem fill_index_subrange_split (begin middle end_ : nat)
  (cell_level_index : list CellHandle) (map : gmap CellHandle nat) :
  (begin <= middle <= end_)%nat ->
  fill_index_subrange begin middle cell_level_index map ≫=
    fill_index_subrange middle end_ cell_level_index =
  fill_index_subrange begin end_ cell_level_index map.
Proof.
  intros Hr. unfold fill_index_subrange.
  destruct (decide (cell_level_index = [])) as [He|Hne].
  - rewrite !bool_decide_eq_true_2 by exact He. reflexivity.
  - rewrite bool_decide_eq_false_2 by exact Hne.
    destruct cell_level_index as [|first rest] eqn:Hcli; [congruence|].
    rewrite <- Hcli in *.
    assert (at_index cell_level_index 0 = Returned first) as R0
      by (rewrite Hcli; reflexivity).
    destruct begin as [|begin].
    + cbn [Nat.eqb]. rewrite R0. cbn [mbind outcome_bind bind].
      destruct middle as [|middle].
      * cbn [Nat.sub seq fill_index_loop mbind outcome_bind bind].
        change (0 =? 0)%nat with true. cbn [mbind outcome_bind bind].
        assert (insert_new first 0 (insert_new first 0 map) =
                insert_new first 0 map) as ->; [|reflexivity].
        unfold insert_new at 1. rewrite insert_new_lookup.
        destruct (map !! first); [reflexivity|].
        rewrite bool_decide_eq_true_2 by reflexivity. reflexivity.
      * replace (S middle - 1)%nat with middle by lia.
        assert (seq 1 (end_ - 1) =
                seq 1 middle ++ seq (S middle) (end_ - S middle)) as ->.
        { replace (end_ - 1)%nat with (middle + (end_ - S middle))%nat by lia.
          apply seq_app. }
        rewrite fill_index_loop_app.
        destruct (fill_index_loop cell_level_index (seq 1 middle)
                    (insert_new first 0 map)) as [m| | |]; reflexivity.
    + assert ((S begin =? 0)%nat = false) as -> by reflexivity.
      cbn [mbind outcome_bind bind].
      assert (seq (S begin) (end_ - S begin) =
              seq (S begin) (middle - S begin) ++ seq middle (end_ - middle))
        as ->.
      { replace (end_ - S begin)%nat
          with ((middle - S begin) + (end_ - middle))%nat by lia.
        rewrite seq_app. do 2 f_equal. lia. }
      rewrite fill_index_loop_app.
      assert ((middle =? 0)%nat = false) as Hm by (apply Nat.eqb_neq; lia).
      destruct (fill_index_loop cell_level_index
                  (seq (S begin) (middle - S begin)) map) as [m| | |];
        cbn [mbind outcome_bind bind]; rewrite ?Hm; reflexivity.
Qed.


(** Four lanes, the second cell stored twice. *)
Definition padded_cells : list CellHandle :=
  [(0, 0); (0, 1); (0, 1); (0, 2)]%nat.

Lemma fill_index_subrange_first_position_witness :
  (4 <= length padded_cells)%nat /\
  exists map,
    fill_index_subrange 0 4 padded_cells ∅ = Returned map /\
    map !! (0, 1)%nat = Some 1%nat /\ map !! (0, 2)%nat = Some 3%nat.
Proof.
  split; [cbn; lia|].
  destruct (fill_index_subrange_first_position 4 padded_cells (le_n 4))
    as [_ H].
  destruct H as (map & R & Hmap); [discriminate|].
  exists map. split; [exact R|]. split.
  - apply Hmap. split; [cbn; lia|]. split; [reflexivity|].
    intros i Hi. assert (i = 0%nat) as -> by lia. discriminate.
  - apply Hmap. split; [cbn; lia|]. split; [reflexivity|].
    intros i Hi.
    do 3 (destruct i as [|i]; [discriminate|]). lia.
Defined.

Lemma fill_index_subrange_split_witness :
  (0 <= 2 <= 4)%nat /\
  fill_index_subrange 0 2 padded_cells ∅ ≫=
    fill_index_subrange 2 4 padded_cells =
  fill_index_subrange 0 4 padded_cells ∅.
Proof.
  assert (0 <= 2 <= 4)%nat as Hr by lia.
  split; [exact Hr|].
  exact (fill_index_subrange_split 0 2 4 padded_cells ∅ Hr).
Defined.

(** *** Padding the cells of an object without indices
    ([internal_reinit], lines 413-417) *)

(** [while (cell_level_index.size() % n_lanes != 0)
      cell_level_index.push_back(cell_level_index.back());] *)
Fixpoint pad_cell_level_index (fuel : nat) (n_lanes : nat)
  (cell_level_index : list CellHandle) : option (outcome (list CellHandle)) :=
  if (n_lanes =? 0)%nat then Some Undefined
  else if (length cell_level_index mod n_lanes =? 0)%nat
  then Some (Returned cell_level_index)
  else
    match fuel with
    | O => None
    | S fuel' =>
        match last cell_level_index with
        | Some c =>
            pad_cell_level_index fuel' n_lanes (cell_level_index ++ [c])
        | None => Some Undefined
        end
    end.

(** The loop ends within [n_lanes] passes; it leaves the cells it found,
    followed by copies of the last of them up to the next multiple of
    [n_lanes].  Nothing is added to an empty list, or to one whose length
    is a multiple already. *)
Theorem pad_cell_level_index_spec (n_lanes : nat)
  (cell_level_index : list CellHandle) :
  (0 < n_lanes)%nat ->
  exists padding,
    pad_cell_level_index n_lanes n_lanes cell_level_index =
      Some (Returned (cell_level_index ++ padding)) /\
    length padding =
      ((n_lanes - length cell_level_index mod n_lanes) mod n_lanes)%nat /\
    (length (cell_level_index ++ padding) mod n_lanes = 0)%nat /\
    (forall c, c ∈ padding -> last cell_level_index = Some c).
Proof.
  intros Hn.
  assert (forall fuel cells,
             ((n_lanes - length cells mod n_lanes) mod n_lanes <= fuel)%nat ->
             exists padding,
               pad_cell_level_index fuel n_lanes cells =
                 Some (Returned (cells ++ padding)) /\
               length padding =
                 ((n_lanes - length cells mod n_lanes) mod n_lanes)%nat /\
               (forall c, c ∈ padding -> last cells = Some c)) as Haux.
  { induction fuel as [|fuel IH]; intros cells Hf.
    - pose proof (Nat.mod_upper_bound (length cells) n_lanes) as Hr.
      assert (length cells mod n_lanes = 0)%nat as Hz.
      { destruct (decide (length cells mod n_lanes = 0)%nat) as [|Hnz];
          [assumption|].
        rewrite Nat.mod_small in Hf by lia. lia. }
      exists []. cbn [pad_cell_level_index].
      assert ((n_lanes =? 0)%nat = false) as -> by (apply Nat.eqb_neq; lia).
      rewrite Hz. cbn [Nat.eqb]. rewrite app_nil_r.
      split; [reflexivity|]. split.
      + rewrite Nat.sub_0_r, Nat.Div0.mod_same. reflexivity.
      + intros c Hc. inversion Hc.
    - pose proof (Nat.mod_upper_bound (length cells) n_lanes) as Hr.
      cbn [pad_cell_level_index].
      assert ((n_lanes =? 0)%nat = false) as -> by (apply Nat.eqb_neq; lia).
      destruct (length cells mod n_lanes =? 0)%nat eqn:Hz.
      + apply Nat.eqb_eq in Hz. exists []. rewrite app_nil_r.
        split; [reflexivity|]. split.
        * rewrite Hz, Nat.sub_0_r, Nat.Div0.mod_same. reflexivity.
        * intros c Hc. inversion Hc.
      + apply Nat.eqb_neq in Hz.
        destruct (last cells) as [c|] eqn:Hlast.
        2:{ apply last_None in Hlast. subst cells. cbn in Hz.
            rewrite Nat.Div0.mod_0_l in Hz. congruence. }
        assert (length (cells ++ [c]) mod n_lanes =
                (S (length cells mod n_lanes)) mod n_lanes)%nat as Hnext.
        { rewrite length_app. cbn [length]. rewrite Nat.add_1_r.
          rewrite <- Nat.add_1_r, <- (Nat.add_1_r (length cells mod n_lanes)).
          rewrite Nat.Div0.add_mod_idemp_l. reflexivity. }
        rewrite Nat.mod_small in Hf by lia.
        destruct (IH (cells ++ [c])) as (padding & R & Hlen & Hall).
        { rewrite Hnext.
          destruct (decide (S (length cells mod n_lanes) = n_lanes))
            as [He|Hne].
          - rewrite He, Nat.Div0.mod_same, Nat.sub_0_r, Nat.Div0.mod_same.
            lia.
          - rewrite (Nat.mod_small (S _)) by lia.
            rewrite Nat.mod_small by lia. lia. }
        exists (c :: padding). rewrite R.
        rewrite <- app_assoc. cbn [app].
        split; [reflexivity|]. split.
        * cbn [length]. rewrite Hlen, Hnext.
          rewrite (Nat.mod_small (n_lanes - length cells mod n_lanes))
            by lia.
          destruct (decide (S (length cells mod n_lanes) = n_lanes))
            as [He|Hne].
          -- rewrite He, Nat.Div0.mod_same, Nat.sub_0_r, Nat.Div0.mod_same.
             lia.
          -- rewrite (Nat.mod_small (S _)) by lia.
             rewrite Nat.mod_small by lia. lia.
        * intros x Hx. apply elem_of_cons in Hx. destruct Hx as [->|Hx].
          -- reflexivity.
          -- apply Hall in Hx. rewrite last_snoc in Hx. exact Hx. }
  destruct (Haux n_lanes cell_level_index) as (padding & R & Hlen & Hall).
  { pose proof (Nat.mod_upper_bound
                  (n_lanes - length cell_level_index mod n_lanes) n_lanes).
    lia. }
  exists padding. split; [exact R|]. split; [exact Hlen|].
  split; [|exact Hall].
  rewrite length_app, Hlen.
  pose proof (Nat.mod_upper_bound (length cell_level_index) n_lanes) as Hr.
  pose proof (Nat.div_mod_eq (length cell_level_index) n_lanes) as Hdm.
  destruct (decide (length cell_level_index mod n_lanes = 0)%nat)
    as [Hz|Hnz].
  - rewrite Hz, Nat.sub_0_r, Nat.Div0.mod_same, Nat.add_0_r. exact Hz.
  - rewrite (Nat.mod_small (n_lanes - _)) by lia.
    rewrite Hdm at 1.
    replace (n_lanes * (length cell_level_index / n_lanes) +
             length cell_level_index mod n_lanes +
             (n_lanes - length cell_level_index mod n_lanes))%nat
      with ((S (length cell_level_index / n_lanes)) * n_lanes)%nat by lia.
    apply Nat.Div0.mod_mul.
Qed.

Lemma pad_cell_level_index_spec_witness :
  (0 < 4)%nat /\
  pad_cell_level_index 4 4 [(0, 0); (0, 1); (0, 2); (0, 3); (0, 4)]%nat =
    Some (Returned [(0, 0); (0, 1); (0, 2); (0, 3);
                    (0, 4); (0, 4); (0, 4); (0, 4)]%nat).
Proof.
  split; [lia|].
  destruct (pad_cell_level_index_spec 4
              [(0, 0); (0, 1); (0, 2); (0, 3); (0, 4)]%nat
              (le_S 1 3 (le_S 1 2 (le_S 1 1 (le_n 1)))))
    as (padding & R & _).
  rewrite R.
  assert (pad_cell_level_index 4 4
            [(0, 0); (0, 1); (0, 2); (0, 3); (0, 4)]%nat =
          Some (Returned [(0, 0); (0, 1); (0, 2); (0, 3);
                          (0, 4); (0, 4); (0, 4); (0, 4)]%nat)) as R'
    by (vm_compute; reflexivity).
  rewrite R' in R. symmetry. exact R.
Defined.

End MatrixFree.
